(** * mkcert: the entry point (main.go)

    A shallow embedding of [main], [Run], [getCAROOT], [install],
    [uninstall], [check] and [fatalIfErr], together with the parts of the
    Go standard library the identifier check of [Run] relies on
    ([net.ParseIP], [regexp.MatchString], UTF-8 decoding).

    A Go [string] is a sequence of bytes: it is modelled by Rocq's
    [string], whose characters are 8-bit.  Library routines work on the
    list of byte values. *)

From Stdlib Require Import List String Ascii NArith Bool Arith Lia.
Import ListNotations.

Set Implicit Arguments.

(** ** Bytes and runes *)

Definition byte := N.
Definition rune := N.

Definition bytes_of (s : string) : list byte :=
  map N_of_ascii (list_ascii_of_string s).

Definition between (lo hi x : N) : bool := (lo <=? x)%N && (x <=? hi)%N.

(** ** unicode/utf8 *)

Module utf8.

Definition RuneError : rune := 0xFFFD%N.
Definition RuneSelf : N := 0x80%N.

(** Information about the first byte of a UTF-8 sequence (the table
    [first]): [as] for ASCII, [xx] for an invalid byte, and otherwise the
    index of the accept range in the high nibble and the size in the low. *)
Definition first (b : byte) : N :=
  (if b <? 0x80 then 0xF0
   else if b <? 0xC2 then 0xF1
   else if b <? 0xE0 then 0x02
   else if b =? 0xE0 then 0x13
   else if b <? 0xED then 0x03
   else if b =? 0xED then 0x23
   else if b <? 0xF0 then 0x03
   else if b =? 0xF0 then 0x34
   else if b <? 0xF4 then 0x04
   else if b =? 0xF4 then 0x44
   else 0xF1)%N.

(** [acceptRanges]: the admissible second byte. *)
Definition acceptRanges (i : N) : N * N :=
  (match i with
   | 0 => (0x80, 0xBF)
   | 1 => (0xA0, 0xBF)
   | 2 => (0x80, 0x9F)
   | 3 => (0x90, 0xBF)
   | 4 => (0x80, 0x8F)
   | _ => (1, 0)
   end)%N.

Definition cont (b : byte) : bool := between 0x80 0xBF b.

(** [DecodeRuneInString]: the first rune of [s] and its width in bytes;
    an invalid or truncated encoding yields [(RuneError, 1)]. *)
Definition DecodeRuneInString (s : list byte) : rune * nat :=
  match s with
  | [] => (RuneError, 0)
  | s0 :: r1 =>
      let x := first s0 in
      if (0xF0 <=? x)%N then
        ((if (x =? 0xF0)%N then s0 else RuneError), 1)
      else
        let sz := N.to_nat (N.land x 7) in
        let accept := acceptRanges (N.shiftr x 4) in
        if List.length s <? sz then (RuneError, 1) else
        match r1 with
        | [] => (RuneError, 1)
        | s1 :: r2 =>
            if negb (between (fst accept) (snd accept) s1) then (RuneError, 1)
            else if sz <=? 2 then
              (N.lor (N.shiftl (N.land s0 0x1F) 6) (N.land s1 0x3F), 2)
            else
              match r2 with
              | [] => (RuneError, 1)
              | s2 :: r3 =>
                  if negb (cont s2) then (RuneError, 1)
                  else if sz <=? 3 then
                    (N.lor (N.lor (N.shiftl (N.land s0 0x0F) 12)
                                  (N.shiftl (N.land s1 0x3F) 6))
                           (N.land s2 0x3F), 3)
                  else
                    match r3 with
                    | [] => (RuneError, 1)
                    | s3 :: _ =>
                        if negb (cont s3) then (RuneError, 1)
                        else
                          (N.lor (N.lor (N.lor (N.shiftl (N.land s0 0x07) 18)
                                               (N.shiftl (N.land s1 0x3F) 12))
                                        (N.shiftl (N.land s2 0x3F) 6))
                                 (N.land s3 0x3F), 4)
                    end
              end
        end
  end.

End utf8.

(** ** regexp

    The matcher reads its input rune by rune ([inputString.step]): a byte
    below [RuneSelf] is a rune of its own, anything else goes through
    [utf8.DecodeRuneInString]. *)

Module regexp.

Definition step (s : list byte) : rune * nat :=
  match s with
  | [] => (utf8.RuneError, 0)
  | c :: _ => if (c <? utf8.RuneSelf)%N then (c, 1) else utf8.DecodeRuneInString s
  end.

(** The runes the matcher sees, in order.  [n] bounds the number of runes;
    every step consumes at least one byte, so [length s] is enough. *)
Fixpoint runes_upto (n : nat) (s : list byte) : list rune :=
  match n, s with
  | S n', _ :: _ => let (r, w) := step s in r :: runes_upto n' (skipn w s)
  | _, _ => []
  end.

Definition runes (s : list byte) : list rune := runes_upto (List.length s) s.

(** Parsed regular expressions (the operators of regexp/syntax that the
    program's pattern uses).  A character class is a list of inclusive
    ranges; [fold] records the [(?i)] flag under which it was parsed. *)
Inductive re : Type :=
| OpNoMatch
| OpEmptyMatch
| OpCharClass (fold : bool) (ranges : list (rune * rune))
| OpConcat (a b : re)
| OpAlternate (a b : re)
| OpStar (a : re)
| OpQuest (a : re).

Definition OpLiteral (fold : bool) (c : rune) : re := OpCharClass fold [(c, c)].

Definition inRanges (ranges : list (rune * rune)) (r : rune) : bool :=
  existsb (fun p => between (fst p) (snd p) r) ranges.

(** The ASCII members of the [unicode.SimpleFold] orbit of [r], [r] itself
    apart.  Two orbits of ASCII letters leave ASCII: k, K, U+212A (KELVIN
    SIGN) and s, S, U+017F (LATIN SMALL LETTER LONG S). *)
Definition asciiFolds (r : rune) : list rune :=
  (if between 65 90 r then [r + 32]
   else if between 97 122 r then [r - 32]
   else if r =? 0x212A then [75; 107]
   else if r =? 0x17F then [83; 115]
   else [])%N.

(** Membership in a class of ASCII ranges; under [(?i)] the parser closes
    the class under simple case folding. *)
Definition classMatches (fold : bool) (ranges : list (rune * rune)) (r : rune) : bool :=
  inRanges ranges r || (fold && existsb (inRanges ranges) (asciiFolds r)).

(** The language of an expression. *)
Inductive lang : re -> list rune -> Prop :=
| L_Empty : lang OpEmptyMatch []
| L_Class fold ranges r :
    classMatches fold ranges r = true -> lang (OpCharClass fold ranges) [r]
| L_Concat a b u v : lang a u -> lang b v -> lang (OpConcat a b) (u ++ v)
| L_AltL a b u : lang a u -> lang (OpAlternate a b) u
| L_AltR a b u : lang b u -> lang (OpAlternate a b) u
| L_StarNil a : lang (OpStar a) []
| L_StarCons a u v : lang a u -> lang (OpStar a) v -> lang (OpStar a) (u ++ v)
| L_QuestNone a : lang (OpQuest a) []
| L_QuestSome a u : lang a u -> lang (OpQuest a) u.

(** Matching by derivatives. *)
Fixpoint nullable (e : re) : bool :=
  match e with
  | OpNoMatch => false
  | OpEmptyMatch => true
  | OpCharClass _ _ => false
  | OpConcat a b => nullable a && nullable b
  | OpAlternate a b => nullable a || nullable b
  | OpStar _ => true
  | OpQuest _ => true
  end.

Fixpoint deriv (c : rune) (e : re) : re :=
  match e with
  | OpNoMatch => OpNoMatch
  | OpEmptyMatch => OpNoMatch
  | OpCharClass fold ranges =>
      if classMatches fold ranges c then OpEmptyMatch else OpNoMatch
  | OpConcat a b =>
      if nullable a then OpAlternate (OpConcat (deriv c a) b) (deriv c b)
      else OpConcat (deriv c a) b
  | OpAlternate a b => OpAlternate (deriv c a) (deriv c b)
  | OpStar a => OpConcat (deriv c a) (OpStar a)
  | OpQuest a => deriv c a
  end.

Fixpoint matches (e : re) (w : list rune) : bool :=
  match w with
  | [] => nullable e
  | c :: w' => matches (deriv c e) w'
  end.

(** A compiled pattern of the shape [^ e $]: without the multi-line flag
    the two anchors pin a match to the whole text. *)
Record Regexp : Type := MustCompile { expr : re }.

Definition MatchString (p : Regexp) (s : string) : bool :=
  matches (expr p) (runes (bytes_of s)).

End regexp.

(** ** net: parsing of IP literals

    [ParseIP] and its helpers, on byte lists, following net/ip.go and
    net/parse.go as they stood when main.go was written.  An [IP] is a byte
    list, and [None] stands for Go's [nil]. *)

Module net.

Definition IP := list byte.
Definition IPv4len : nat := 4.
Definition IPv6len : nat := 16.

(** Bigger than any value the parsers accept. *)
Definition big : N := 0xFFFFFF%N.

(** [dtoi]: decimal to integer; the value, the number of bytes consumed
    and a success flag. *)
Fixpoint dtoi_from (s : list byte) (n : N) (i : nat) : N * nat * bool :=
  match s with
  | c :: s' =>
      if between 48 57 c then
        let n' := (n * 10 + (c - 48))%N in
        if (big <=? n')%N then (big, i, false) else dtoi_from s' n' (S i)
      else if i =? 0 then (0%N, 0, false) else (n, i, true)
  | [] => if i =? 0 then (0%N, 0, false) else (n, i, true)
  end.

Definition dtoi (s : list byte) : N * nat * bool := dtoi_from s 0%N 0.

(** [xtoi]: hexadecimal to integer, same results as [dtoi]. *)
Definition hexval (c : byte) : option N :=
  (if between 48 57 c then Some (c - 48)
   else if between 97 102 c then Some (c - 97 + 10)
   else if between 65 70 c then Some (c - 65 + 10)
   else None)%N.

Fixpoint xtoi_from (s : list byte) (n : N) (i : nat) : N * nat * bool :=
  match s with
  | c :: s' =>
      match hexval c with
      | Some d =>
          let n' := (n * 16 + d)%N in
          if (big <=? n')%N then (0%N, i, false) else xtoi_from s' n' (S i)
      | None => if i =? 0 then (0%N, i, false) else (n, i, true)
      end
  | [] => if i =? 0 then (0%N, i, false) else (n, i, true)
  end.

Definition xtoi (s : list byte) : N * nat * bool := xtoi_from s 0%N 0.

Definition v4InV6Prefix : list byte := [0; 0; 0; 0; 0; 0; 0; 0; 0; 0; 0xff; 0xff]%N.

Definition IPv4 (a b c d : byte) : IP := v4InV6Prefix ++ [a; b; c; d].

(** [parseIPv4]: the loop over the four octets; [i] counts the octets read
    and [p] holds them. *)
Fixpoint parseIPv4_loop (k : nat) (i : nat) (s : list byte) (p : list byte)
  : option (list byte * list byte) :=
  match k with
  | O => Some (p, s)
  | S k' =>
      match s with
      | [] => None
      | c :: rest =>
          let s1 := if 0 <? i then (if (c =? 46)%N then Some rest else None)
                    else Some s in
          match s1 with
          | None => None
          | Some s1 =>
              let '(n, c, ok) := dtoi s1 in
              if negb ok || (0xFF <? n)%N then None
              else parseIPv4_loop k' (S i) (skipn c s1) (p ++ [n])
          end
      end
  end.

Definition parseIPv4 (s : list byte) : option IP :=
  match parseIPv4_loop IPv4len 0 s [] with
  | Some ([a; b; c; d], []) => Some (IPv4 a b c d)
  | _ => None
  end.

(** [parseIPv6] without zone.  The loop state is the bytes written so
    far ([ip], of length [i]), the position of the ellipsis and the rest of
    the text; [k] is the number of 16-bit groups still missing, so the loop
    condition [i < IPv6len] is [k <> 0]. *)
Fixpoint parseIPv6_loop (k : nat) (ip : list byte) (ellipsis : option nat)
         (s : list byte) : option (list byte * option nat * list byte) :=
  match k with
  | O => Some (ip, ellipsis, s)
  | S k' =>
      let i := List.length ip in
      let '(n, c, ok) := xtoi s in
      if negb ok || (0xFFFF <? n)%N then None
      else if (c <? List.length s) && (nth c s 0 =? 46)%N then
        (* trailing IPv4 *)
        if (match ellipsis with None => negb (i =? IPv6len - IPv4len) | Some _ => false end)
        then None
        else if IPv6len <? i + IPv4len then None
        else match parseIPv4 s with
             | None => None
             | Some ip4 => Some (ip ++ skipn 12 ip4, ellipsis, [])
             end
      else
        let ip := ip ++ [N.shiftr n 8; N.land n 0xFF] in
        let s := skipn c s in
        match s with
        | [] => Some (ip, ellipsis, s)
        | c0 :: s1 =>
            if negb (c0 =? 58)%N || (List.length s =? 1) then None
            else
              match s1 with
              | c1 :: s2 =>
                  if (c1 =? 58)%N then
                    match ellipsis with
                    | Some _ => None
                    | None =>
                        match s2 with
                        | [] => Some (ip, Some (List.length ip), s2)
                        | _ => parseIPv6_loop k' ip (Some (List.length ip)) s2
                        end
                    end
                  else parseIPv6_loop k' ip ellipsis s1
              | [] => None
              end
        end
  end.

Definition parseIPv6 (s : list byte) : option IP :=
  let start :=
    match s with
    | 58%N :: 58%N :: s' => (Some 0, s')
    | _ => (None, s)
    end in
  let '(ellipsis, s) := start in
  match ellipsis, s with
  | Some _, [] => Some (repeat 0%N IPv6len)
  | _, _ =>
      match parseIPv6_loop (IPv6len / 2) [] ellipsis s with
      | None => None
      | Some (ip, ellipsis, s) =>
          if negb (List.length s =? 0) then None
          else
            let i := List.length ip in
            if i <? IPv6len then
              match ellipsis with
              | None => None
              | Some e => Some (firstn e ip ++ repeat 0%N (IPv6len - i) ++ skipn e ip)
              end
            else
              match ellipsis with
              | Some _ => None
              | None => Some ip
              end
      end
  end.

(** [ParseIP]: the first dot or colon decides the family. *)
Fixpoint ParseIP_scan (s rest : list byte) : option IP :=
  match rest with
  | [] => None
  | c :: rest' =>
      if (c =? 46)%N then parseIPv4 s
      else if (c =? 58)%N then parseIPv6 s
      else ParseIP_scan s rest'
  end.

Definition ParseIP (s : string) : option IP :=
  ParseIP_scan (bytes_of s) (bytes_of s).

End net.

Local Open Scope string_scope.
Local Open Scope list_scope.

(** * package main *)

(** ** The world outside main.go

    [x509.Certificate] and [crypto.PrivateKey] values are opaque here. *)

Definition Certificate : Type := string.
Definition PrivateKey : Type := string.

(** What a run can observe of its host: the operating system family, the
    process environment, [filepath.Join] of that platform, and how each
    call that leaves main.go turns out.  Every one of these calls happens at
    most once in a run, so a fixed answer per call loses nothing. *)
Record World : Type := {
  GOOS : string;
  (** [os.Getenv]: the value of a variable, empty when it is not set *)
  Getenv : string -> string;
  (** [filepath.Join] *)
  Join : list string -> string;
  (** [os.MkdirAll path 0755]: [None] for a nil error, else its text *)
  MkdirAll : string -> option string;
  (** [m.loadCA()]: the authority found or created under the given CAROOT,
      or [None] when the call ends the process *)
  loadCA_outcome : string -> option (Certificate * PrivateKey);
  (** [m.installPlatform()], [m.uninstallPlatform()], [m.makeCert(hosts)]:
      [true] when the call returns, [false] when it ends the process *)
  installPlatform_returns : bool;
  uninstallPlatform_returns : bool;
  makeCert_returns : list string -> bool;
  (** [caCert.Verify(x509.VerifyOptions{})]: [true] for a nil error *)
  Verify : Certificate -> bool
}.

(** ** The receiver *)

Record mkcert : Type := {
  installMode : bool;
  uninstallMode : bool;
  CAROOT : string;
  caCert : option Certificate;
  caKey : option PrivateKey;
  ignoreCheckFailure : bool
}.

Definition set_CAROOT (m : mkcert) (root : string) : mkcert :=
  {| installMode := installMode m; uninstallMode := uninstallMode m;
     CAROOT := root; caCert := caCert m; caKey := caKey m;
     ignoreCheckFailure := ignoreCheckFailure m |}.

Definition set_ca (m : mkcert) (c : Certificate) (k : PrivateKey) : mkcert :=
  {| installMode := installMode m; uninstallMode := uninstallMode m;
     CAROOT := CAROOT m; caCert := Some c; caKey := Some k;
     ignoreCheckFailure := ignoreCheckFailure m |}.

Definition set_ignoreCheckFailure (m : mkcert) (b : bool) : mkcert :=
  {| installMode := installMode m; uninstallMode := uninstallMode m;
     CAROOT := CAROOT m; caCert := caCert m; caKey := caKey m;
     ignoreCheckFailure := b |}.

(** ** Effects

    A run leaves a trace of the calls it makes outside main.go and of the
    lines it logs; message texts are abstracted to their identity. *)

Inductive collaborator : Type :=
| LoadCA
| InstallPlatform
| UninstallPlatform
| MakeCert (hosts : list string).

Inductive notice : Type :=
| NotInstalledWarning   (* "Warning: the local CA is not installed ..." *)
| RunInstallHint        (* "Run "mkcert -install" to avoid ..." *)
| Usage
| NowInstalled          (* "The local CA is now installed ..." *)
| NowUninstalled.       (* "The local CA is now uninstalled ..." *)

Inductive event : Type :=
| EvMkdirAll (path : string) (perm : N)
| EvCall (c : collaborator)
| EvVerify (c : Certificate)
| EvLog (n : notice).

(** The ways the process ends early: the [log.Fatal] calls of main.go, and
    the exit of a collaborator that does not return. *)
Inductive fatal : Type :=
| BothModes                          (* "ERROR: you can't set -install and -uninstall ..." *)
| NoCAROOT                           (* "ERROR: failed to find the default CA location ..." *)
| IfErr (msg : string) (err : string) (* fatalIfErr: "ERROR: %s: %s" *)
| InvalidName (name : string)        (* "ERROR: %q is not a valid hostname or IP" *)
| InstallingFailed                   (* "Installing failed. Please report ..." *)
| ExitIn (c : collaborator).

Inductive result (A : Type) : Type :=
| Returned (a : A) (m : mkcert)
| Fatal (f : fatal)
| Panic.                             (* nil pointer dereference *)

Arguments Fatal {A} f.
Arguments Panic {A}.

Definition trace : Type := list event.

Definition M (A : Type) : Type := mkcert -> trace * result A.

Definition ret {A} (a : A) : M A := fun m => ([], Returned a m).

Definition bind {A B} (x : M A) (f : A -> M B) : M B :=
  fun m =>
    match x m with
    | (t, Returned a m') => let (t', r) := f a m' in (t ++ t', r)
    | (t, Fatal e) => (t, Fatal e)
    | (t, Panic) => (t, Panic)
    end.

Notation "x <- c ;; k" := (bind c (fun x => k))
  (at level 61, c at next level, right associativity).
Notation "c ;; k" := (bind c (fun _ => k))
  (at level 61, right associativity).

Definition get : M mkcert := fun m => ([], Returned m m).
Definition put (m : mkcert) : M unit := fun _ => ([], Returned tt m).
Definition emit (e : event) : M unit := fun m => ([e], Returned tt m).
Definition log_Fatal {A} (f : fatal) : M A := fun _ => ([], Fatal f).
Definition panic {A} : M A := fun _ => ([], Panic).
Definition log_Print (n : notice) : M unit := emit (EvLog n).

Definition isNil {A} (o : option A) : bool :=
  match o with None => true | Some _ => false end.

(** [hostnameRegexp], as [regexp.MustCompile] parses
    [(?i)^(\*\.)?[0-9a-z_-]([0-9a-z._-]*[0-9a-z_-])?$]. *)
Definition hostnameRegexp : regexp.Regexp :=
  let i := true in
  let edge := regexp.OpCharClass i [(48, 57); (97, 122); (95, 95); (45, 45)]%N in
  let inner :=
    regexp.OpCharClass i [(48, 57); (97, 122); (46, 46); (95, 95); (45, 45)]%N in
  regexp.MustCompile
    (regexp.OpConcat
       (regexp.OpQuest
          (regexp.OpConcat (regexp.OpLiteral i 42%N) (regexp.OpLiteral i 46%N)))
       (regexp.OpConcat edge
          (regexp.OpQuest (regexp.OpConcat (regexp.OpStar inner) edge)))).

(** The permission bits 0755. *)
Definition perm0755 : N := 493%N.

Section Program.

Variable w : World.

(** ** getCAROOT *)
Definition getCAROOT : string :=
  let env := Getenv w "CAROOT" in
  if negb (env =? "") then env
  else
    (* [None] is the early [return ""] *)
    let dir : option string :=
      if GOOS w =? "windows" then Some (Getenv w "LocalAppData")
      else if GOOS w =? "darwin" then
        let dir := Getenv w "HOME" in
        if dir =? "" then None
        else Some (Join w [dir; "Library"; "Application Support"])
      else
        let dir := Getenv w "XDG_DATA_HOME" in
        if dir =? "" then
          let dir := Getenv w "HOME" in
          if dir =? "" then None
          else Some (Join w [dir; ".local"; "share"])
        else Some dir
    in
    match dir with
    | None => ""
    | Some dir => Join w [dir; "mkcert"]
    end.

(** ** Calls that leave main.go *)

Definition os_MkdirAll (path : string) (perm : N) : M (option string) :=
  emit (EvMkdirAll path perm) ;; ret (MkdirAll w path).

Definition call (c : collaborator) (returns : bool) : M unit :=
  emit (EvCall c) ;; if returns then ret tt else log_Fatal (ExitIn c).

(** Modelled from the spec: [loadCA] is a method of [mkcert] defined
    outside main.go.  Section 4.2: it loads the authority from the storage
    root, or creates it, and the pair becomes the authority record; every
    failure is fatal. *)
Definition loadCA : M unit :=
  m <- get ;;
  emit (EvCall LoadCA) ;;
  match loadCA_outcome w (CAROOT m) with
  | Some (c, k) => put (set_ca m c k)
  | None => log_Fatal (ExitIn LoadCA)
  end.

(** Modelled from the spec: [installPlatform], [uninstallPlatform] and
    [makeCert] are methods of [mkcert] defined outside main.go.  Sections
    4.4 and 6: synchronous, single-shot, any error is fatal; the authority
    record is read-only for them. *)
Definition installPlatform : M unit :=
  call InstallPlatform (installPlatform_returns w).

Definition uninstallPlatform : M unit :=
  call UninstallPlatform (uninstallPlatform_returns w).

Definition makeCert (hosts : list string) : M unit :=
  call (MakeCert hosts) (makeCert_returns w hosts).

(** ** fatalIfErr *)
Definition fatalIfErr (err : option string) (msg : string) : M unit :=
  match err with
  | Some e => log_Fatal (IfErr msg e)
  | None => ret tt
  end.

(** ** check *)
Definition check : M bool :=
  m <- get ;;
  if ignoreCheckFailure m then ret true
  else
    match caCert m with
    | None => panic
    | Some c => emit (EvVerify c) ;; ret (Verify w c)
    end.

(** ** install *)
Definition install : M unit :=
  trusted <- check ;;
  if trusted then ret tt
  else
    installPlatform ;;
    m <- get ;;
    put (set_ignoreCheckFailure m true) ;;
    trusted <- check ;;
    if trusted then log_Print NowInstalled
    else log_Fatal InstallingFailed.

(** ** uninstall *)
Definition uninstall : M unit :=
  uninstallPlatform ;;
  log_Print NowUninstalled.

(** ** Run *)

(** The loop over the names (lines 95 to 103). *)
Fixpoint Run_names (args : list string) : M unit :=
  match args with
  | [] => ret tt
  | name :: rest =>
      if negb (isNil (net.ParseIP name)) then Run_names rest
      else if regexp.MatchString hostnameRegexp name then Run_names rest
      else log_Fatal (InvalidName name)
  end.

Definition Run (args : list string) : M unit :=
  m <- get ;;
  put (set_CAROOT m getCAROOT) ;;
  m <- get ;;
  if CAROOT m =? "" then log_Fatal NoCAROOT
  else
    err <- os_MkdirAll (CAROOT m) perm0755 ;;
    fatalIfErr err "failed to create the CAROOT" ;;
    loadCA ;;
    (* from line 70 on *)
    let issue : M unit :=
      if (List.length args =? 0)%nat then log_Print Usage
      else Run_names args ;; makeCert args
    in
    m <- get ;;
    if installMode m then
      install ;;
      if (List.length args =? 0)%nat then ret tt else issue
    else if uninstallMode m then
      uninstall
    else
      (trusted <- check ;;
       if negb trusted then
         log_Print NotInstalledWarning ;; log_Print RunInstallHint
       else ret tt) ;;
      issue.

(** ** main, after [flag.Parse] *)
Definition main (installFlag uninstallFlag : bool) (args : list string)
  : trace * result unit :=
  if installFlag && uninstallFlag then ([], Fatal BothModes)
  else
    Run args {| installMode := installFlag; uninstallMode := uninstallFlag;
                CAROOT := ""; caCert := None; caKey := None;
                ignoreCheckFailure := false |}.

End Program.

(** * Reading traces *)

Definition installs (t : trace) : bool :=
  existsb (fun e => match e with EvCall InstallPlatform => true | _ => false end) t.

Definition uninstalls (t : trace) : bool :=
  existsb (fun e => match e with EvCall UninstallPlatform => true | _ => false end) t.

Definition issues (t : trace) : bool :=
  existsb (fun e => match e with EvCall (MakeCert _) => true | _ => false end) t.

Definition verifies (t : trace) : bool :=
  existsb (fun e => match e with EvVerify _ => true | _ => false end) t.

(** The same world, except that verification gives [v]. *)
Definition with_Verify (w : World) (v : bool) : World :=
  {| GOOS := GOOS w; Getenv := Getenv w; Join := Join w; MkdirAll := MkdirAll w;
     loadCA_outcome := loadCA_outcome w;
     installPlatform_returns := installPlatform_returns w;
     uninstallPlatform_returns := uninstallPlatform_returns w;
     makeCert_returns := makeCert_returns w;
     Verify := fun _ => v |}.

(** * The names [Run] lets through *)

(** What the loop of [Run] decides for one name. *)
Definition byIP (name : string) : bool := negb (isNil (net.ParseIP name)).

(** The characters of [[0-9a-z_-]] and [[0-9a-z._-]] under [(?i)]. *)
Definition alnum (r : rune) : bool :=
  between 48 57 r || between 97 122 r || between 65 90 r.

Definition edgeChar (r : rune) : bool :=
  (alnum r || (r =? 95) || (r =? 45) || (r =? 0x17F) || (r =? 0x212A))%N.

Definition innerChar (r : rune) : bool := edgeChar r || (r =? 46)%N.

(** A non-empty run of [innerChar]s whose two ends are [edgeChar]s. *)
Definition nameBody (b : list rune) : bool :=
  match b with
  | [] => false
  | a :: _ => edgeChar a && edgeChar (last b a) && forallb innerChar b
  end.

(** The shape of the names [hostnameRegexp] matches: a [nameBody], or one
    after a leading [*.]. *)
Definition hostnameShape (s : list rune) : bool :=
  nameBody s ||
  match s with
  | c1 :: c2 :: b => (c1 =? 42)%N && (c2 =? 46)%N && nameBody b
  | _ => false
  end.

(** ** The grammar of the specification

    "Optional leading [*.] wildcard label, followed by one or more
    dot-separated labels, each label composed of alphanumerics, underscore,
    and hyphen, not starting or ending with hyphen/underscore
    (case-insensitive)." *)

Fixpoint splitDots (s : list rune) : list (list rune) :=
  match s with
  | [] => [[]]
  | c :: s' =>
      if (c =? 46)%N then [] :: splitDots s'
      else
        match splitDots s' with
        | l :: ls => (c :: l) :: ls
        | [] => [[c]]
        end
  end.

Definition labelChar (r : rune) : bool := (alnum r || (r =? 95) || (r =? 45))%N.

Definition specLabel (l : list rune) : bool :=
  match l with
  | [] => false
  | a :: _ => alnum a && alnum (last l a) && forallb labelChar l
  end.

Definition specHostname (s : list rune) : bool :=
  let body :=
    match s with
    | c1 :: c2 :: b => if (c1 =? 42)%N && (c2 =? 46)%N then b else s
    | _ => s
    end in
  forallb specLabel (splitDots body).

(** The validator the specification describes. *)
Definition specValid (name : string) : bool :=
  byIP name || specHostname (regexp.runes (bytes_of name)).

(** * Sample hosts *)

(** [filepath.Join] on elements that are clean already and hold no volume
    name: the non-empty ones, separated. *)
Definition joinClean (sep : string) (elem : list string) : string :=
  String.concat sep (filter (fun e => negb (e =? "")) elem).

Definition sampleWorld (goos : string) (env : string -> string) (trusted : bool)
  : World :=
  {| GOOS := goos; Getenv := env;
     Join := joinClean (if goos =? "windows" then "\" else "/");
     MkdirAll := fun _ => None;
     loadCA_outcome := fun _ => Some ("rootCA.pem", "rootCA-key.pem");
     installPlatform_returns := true;
     uninstallPlatform_returns := true;
     makeCert_returns := fun _ => true;
     Verify := fun _ => trusted |}.

Definition noEnv : string -> string := fun _ => "".

Definition homeEnv : string -> string :=
  fun k => if k =? "HOME" then "/home/u" else "".

Definition caroot_env (p : string) : string -> string :=
  fun k => if k =? "CAROOT" then p else if k =? "HOME" then "/home/u" else "".

Definition freshReceiver (i u : bool) : mkcert :=
  {| installMode := i; uninstallMode := u; CAROOT := ""; caCert := None;
     caKey := None; ignoreCheckFailure := false |}.

(** * Further readings of a run *)

(** What the loop of [Run] asks of one name. *)
Definition nameOK (name : string) : bool :=
  byIP name || regexp.MatchString hostnameRegexp name.

(** The log line of a given notice. *)
Definition isLog (n : notice) (e : event) : bool :=
  match e, n with
  | EvLog NotInstalledWarning, NotInstalledWarning
  | EvLog RunInstallHint, RunInstallHint
  | EvLog Usage, Usage
  | EvLog NowInstalled, NowInstalled
  | EvLog NowUninstalled, NowUninstalled => true
  | _, _ => false
  end.

(** [filepath.Join] returns the empty path for no element or empty elements
    only: the result is cleaned otherwise, and a cleaned path is not empty. *)
Definition joinKeepsElements (w : World) : Prop :=
  forall elem, Join w elem = "" -> forall e, In e elem -> e = "".

(** ASCII upper case, rune by rune. *)
Definition toUpper (r : rune) : rune :=
  if between 97 122 r then (r - 32)%N else r.

(** The phase of a run an event belongs to: making the directory, loading
    the authority, verifying it, the step of the mode (installer,
    uninstaller or the first warning line), the line that closes that step,
    and last the usage text or the issuance. *)
Definition phase (e : event) : nat :=
  match e with
  | EvMkdirAll _ _ => 0
  | EvCall LoadCA => 1
  | EvVerify _ => 2
  | EvCall InstallPlatform | EvCall UninstallPlatform | EvLog NotInstalledWarning => 3
  | EvLog NowInstalled | EvLog NowUninstalled | EvLog RunInstallHint => 4
  | EvLog Usage | EvCall (MakeCert _) => 5
  end.

Fixpoint ascending (l : list nat) : bool :=
  match l with
  | x :: ((y :: _) as l') => (x <? y)%nat && ascending l'
  | _ => true
  end.

(** The same world, except for what [os.MkdirAll] answers, and for how the
    load of the authority turns out. *)
Definition with_MkdirAll (w : World) (f : string -> option string) : World :=
  {| GOOS := GOOS w; Getenv := Getenv w; Join := Join w; MkdirAll := f;
     loadCA_outcome := loadCA_outcome w;
     installPlatform_returns := installPlatform_returns w;
     uninstallPlatform_returns := uninstallPlatform_returns w;
     makeCert_returns := makeCert_returns w;
     Verify := Verify w |}.

Definition with_loadCA (w : World)
           (f : string -> option (Certificate * PrivateKey)) : World :=
  {| GOOS := GOOS w; Getenv := Getenv w; Join := Join w; MkdirAll := MkdirAll w;
     loadCA_outcome := f;
     installPlatform_returns := installPlatform_returns w;
     uninstallPlatform_returns := uninstallPlatform_returns w;
     makeCert_returns := makeCert_returns w;
     Verify := Verify w |}.

(** * The matcher decides the language *)

Import regexp.

Lemma nullable_lang (e : re) : nullable e = true <-> lang e [].
Proof.
  induction e; simpl; split; intro H;
    try discriminate; try (now constructor); try (now inversion H).
  - apply andb_prop in H as [Ha Hb].
    change (@nil rune) with (@nil rune ++ []). constructor; tauto.
  - inversion H as [| | a' b' u v Hu Hv Hab Huv | | | | | |]; subst.
    apply app_eq_nil in Huv as [-> ->].
    apply andb_true_intro; tauto.
  - apply orb_prop in H as [Ha | Hb]; [apply L_AltL | apply L_AltR]; tauto.
  - apply orb_true_intro. inversion H; subst; tauto.
Qed.

Lemma lang_star_cons (a : re) (c : rune) (w : list rune) :
  lang (OpStar a) (c :: w) ->
  exists u v, w = u ++ v /\ lang a (c :: u) /\ lang (OpStar a) v.
Proof.
  intro H. remember (OpStar a) as e eqn:He. remember (c :: w) as x eqn:Hx.
  revert He Hx.
  induction H as [| | | | | | a' u v Hu _ Hv IHv | |]; intros He Hx;
    try discriminate.
  injection He as ->.
  destruct u as [| c' u'].
  - simpl in Hx. auto.
  - simpl in Hx. injection Hx as Hc Hw. subst c' w. eauto.
Qed.

Lemma deriv_lang (e : re) : forall c w, lang (deriv c e) w <-> lang e (c :: w).
Proof.
  induction e as [| | fold ranges | a IHa b IHb | a IHa b IHb | a IHa | a IHa];
    intros c w; simpl.
  - split; intro H; inversion H.
  - split; intro H; inversion H.
  - destruct (classMatches fold ranges c) eqn:E; split; intro H.
    + inversion H; subst. now constructor.
    + inversion H; subst. constructor.
    + inversion H.
    + inversion H; subst. congruence.
  - destruct (nullable a) eqn:Na; split; intro H.
    + inversion H as [| | | a' b' u Hl | a' b' u Hr | | | |]; subst.
      * inversion Hl as [| | a' b' u v Hu Hv | | | | | |]; subst.
        apply IHa in Hu. change (c :: u ++ v) with ((c :: u) ++ v).
        now constructor.
      * apply IHb in Hr. apply nullable_lang in Na.
        change (c :: w) with ([] ++ c :: w). now constructor.
    + inversion H as [| | a' b' u v Hu Hv Hab Huv | | | | | |]; subst.
      destruct u as [| c' u'].
      * simpl in Huv; subst v. apply L_AltR. now apply IHb.
      * simpl in Huv. injection Huv as Hc Hw. subst c' w.
        apply L_AltL. constructor; [now apply IHa | assumption].
    + inversion H as [| | a' b' u v Hu Hv | | | | | |]; subst.
      apply IHa in Hu. change (c :: u ++ v) with ((c :: u) ++ v).
      now constructor.
    + inversion H as [| | a' b' u v Hu Hv Hab Huv | | | | | |]; subst.
      destruct u as [| c' u'].
      * apply nullable_lang in Hu. congruence.
      * simpl in Huv. injection Huv as Hc Hw. subst c' w.
        constructor; [now apply IHa | assumption].
  - split; intro H.
    + inversion H; subst; [apply L_AltL; now apply IHa | apply L_AltR; now apply IHb].
    + inversion H; subst; [apply L_AltL; now apply IHa | apply L_AltR; now apply IHb].
  - split; intro H.
    + inversion H as [| | a' b' u v Hu Hv | | | | | |]; subst.
      apply IHa in Hu. change (c :: u ++ v) with ((c :: u) ++ v).
      now constructor.
    + apply lang_star_cons in H as (u & v & -> & Hu & Hv).
      constructor; [now apply IHa | assumption].
  - split; intro H.
    + apply L_QuestSome. now apply IHa.
    + inversion H; subst. now apply IHa.
Qed.

Lemma matches_lang (w : list rune) : forall e, matches e w = true <-> lang e w.
Proof.
  induction w as [| c w IH]; intro e; simpl.
  - apply nullable_lang.
  - rewrite IH. apply deriv_lang.
Qed.

(** * Reading the runes of a text *)

Lemma step_width (b : byte) (s : list byte) : 1 <= snd (step (b :: s)).
Proof.
  unfold step, utf8.DecodeRuneInString.
  repeat (match goal with
          | |- context [if ?c then _ else _] => destruct c
          | |- context [match ?l with [] => _ | _ :: _ => _ end] => destruct l
          end; simpl; try lia).
Qed.

(** The bound of [runes_upto] is only a bound: any number of steps from
    the length of the text on reads the same runes, so [runes] reads the
    whole text. *)
Lemma runes_upto_enough (n : nat) : forall m s,
  List.length s <= n -> List.length s <= m -> runes_upto n s = runes_upto m s.
Proof.
  induction n as [| n IH]; intros m s Hn Hm.
  - destruct s; [now destruct m | simpl in Hn; lia].
  - destruct s as [| b s]; [now destruct m |].
    destruct m as [| m]; [simpl in Hm; lia |].
    change (runes_upto (S n) (b :: s))
      with (let (r, wd) := step (b :: s) in r :: runes_upto n (skipn wd (b :: s))).
    change (runes_upto (S m) (b :: s))
      with (let (r, wd) := step (b :: s) in r :: runes_upto m (skipn wd (b :: s))).
    pose proof (step_width b s) as Hw.
    destruct (step (b :: s)) as [r wd]. simpl in Hw. f_equal.
    assert (Hlen : List.length (skipn wd (b :: s)) <= List.length s).
    { rewrite length_skipn.
      change (List.length (b :: s)) with (S (List.length s)). lia. }
    simpl in Hn, Hm. apply IH; lia.
Qed.

(** * The language of [hostnameRegexp] *)

Ltac split_cmp :=
  repeat (cbn;
          match goal with
          | |- context [(?a <=? ?b)%N] => destruct (N.leb_spec a b)
          | |- context [(?a =? ?b)%N] => destruct (N.eqb_spec a b)
          end; try lia);
  try reflexivity.

Lemma edge_class (c : rune) :
  classMatches true [(48, 57); (97, 122); (95, 95); (45, 45)]%N c = edgeChar c.
Proof.
  unfold classMatches, asciiFolds, edgeChar, alnum, inRanges, between; simpl.
  split_cmp.
Qed.

Lemma inner_class (c : rune) :
  classMatches true [(48, 57); (97, 122); (46, 46); (95, 95); (45, 45)]%N c
  = innerChar c.
Proof.
  unfold classMatches, asciiFolds, innerChar, edgeChar, alnum, inRanges, between;
    simpl.
  split_cmp.
Qed.

Lemma literal_class (l c : rune) :
  (l < 65)%N -> classMatches true [(l, l)] c = (c =? l)%N.
Proof.
  intro Hl. unfold classMatches, asciiFolds, inRanges, between; simpl.
  split_cmp.
Qed.

Lemma lang_class (fold : bool) (ranges : list (rune * rune)) (w : list rune) :
  lang (OpCharClass fold ranges) w <->
  exists c, w = [c] /\ classMatches fold ranges c = true.
Proof.
  split.
  - intro H. inversion H; subst. eauto.
  - intros (c & -> & H). now constructor.
Qed.

Lemma lang_star_class (fold : bool) (ranges : list (rune * rune)) (w : list rune) :
  lang (OpStar (OpCharClass fold ranges)) w <->
  forallb (classMatches fold ranges) w = true.
Proof.
  split.
  - intro H. remember (OpStar (OpCharClass fold ranges)) as e eqn:He.
    induction H as [| | | | | | a u v Hu _ Hv IHv | |]; try discriminate.
    + reflexivity.
    + injection He as ->. apply lang_class in Hu as (c & -> & Hc).
      simpl. rewrite Hc. now apply IHv.
  - induction w as [| c w IH]; simpl; intro H.
    + constructor.
    + apply andb_prop in H as [Hc Hw].
      change (c :: w) with ([c] ++ w).
      constructor; [now constructor | now apply IH].
Qed.

Lemma forallb_pointwise {A} (f g : A -> bool) (l : list A) :
  (forall x, f x = g x) -> forallb f l = forallb g l.
Proof.
  intro H. induction l as [| x l IH]; simpl; [reflexivity |].
  now rewrite H, IH.
Qed.

Lemma last_snoc {A} (m : list A) (z d : A) : last (m ++ [z]) d = z.
Proof.
  induction m as [| x m IH]; [reflexivity |].
  simpl. destruct (m ++ [z]) eqn:E; [now destruct m | exact IH].
Qed.

Lemma edge_inner (c : rune) : edgeChar c = true -> innerChar c = true.
Proof. unfold innerChar. intros ->. reflexivity. Qed.

Lemma lang_body (b : list rune) :
  let edge := OpCharClass true [(48, 57); (97, 122); (95, 95); (45, 45)]%N in
  let inner := OpCharClass true [(48, 57); (97, 122); (46, 46); (95, 95); (45, 45)]%N in
  lang (OpConcat edge (OpQuest (OpConcat (OpStar inner) edge))) b <->
  nameBody b = true.
Proof.
  intros edge inner. split.
  - intro H. inversion H as [| | x y u v Hu Hv | | | | | |]; subst.
    apply lang_class in Hu as (a & -> & Ha). rewrite edge_class in Ha.
    inversion Hv as [| | | | | | | x | x u Hq]; subst.
    + simpl. rewrite Ha, (edge_inner _ Ha). reflexivity.
    + inversion Hq as [| | x y m z Hm Hz | | | | | |]; subst.
      apply lang_class in Hz as (c & -> & Hc). rewrite edge_class in Hc.
      apply lang_star_class in Hm.
      change ([a] ++ m ++ [c]) with (a :: m ++ [c]).
      unfold nameBody. rewrite Ha.
      change (a :: m ++ [c]) with ((a :: m) ++ [c]) at 1.
      rewrite last_snoc, Hc. simpl.
      rewrite (edge_inner _ Ha), forallb_app. simpl.
      rewrite (edge_inner _ Hc), andb_true_r.
      now rewrite <- (forallb_pointwise _ _ m inner_class).
  - destruct b as [| a v]; [discriminate |].
    unfold nameBody. intro H.
    apply andb_prop in H as [H Hall]. apply andb_prop in H as [Ha Hz].
    change (a :: v) with ([a] ++ v).
    constructor; [constructor; now rewrite edge_class |].
    destruct v as [| z v']; [constructor |].
    apply L_QuestSome.
    destruct (@exists_last _ (z :: v') ltac:(discriminate)) as (m & c & E).
    rewrite E in *.
    change (a :: m ++ [c]) with ((a :: m) ++ [c]) in Hz.
    rewrite last_snoc in Hz.
    simpl in Hall. apply andb_prop in Hall as [_ Hall].
    rewrite forallb_app in Hall. apply andb_prop in Hall as [Hm _].
    constructor.
    + apply lang_star_class. now rewrite (forallb_pointwise _ _ m inner_class).
    + constructor. now rewrite edge_class.
Qed.

Lemma lang_hostnameRegexp (s : list rune) :
  lang (expr hostnameRegexp) s <-> hostnameShape s = true.
Proof.
  unfold hostnameRegexp, hostnameShape, OpLiteral; simpl. split.
  - intro H. inversion H as [| | x y p b Hp Hb | | | | | |]; subst.
    apply lang_body in Hb.
    inversion Hp as [| | | | | | | x | x u Hq]; subst.
    + simpl. now rewrite Hb.
    + inversion Hq as [| | x y u v Hu Hv | | | | | |]; subst.
      apply lang_class in Hu as (c1 & -> & H1).
      apply lang_class in Hv as (c2 & -> & H2).
      rewrite literal_class in H1, H2 by lia.
      simpl. rewrite H1, H2, Hb. apply orb_true_r.
  - intro H. apply orb_prop in H as [H | H].
    + change s with ([] ++ s). constructor; [constructor | now apply lang_body].
    + destruct s as [| c1 [| c2 b]]; try discriminate.
      apply andb_prop in H as [H Hb]. apply andb_prop in H as [H1 H2].
      apply N.eqb_eq in H1, H2. subst c1 c2.
      change (42 :: 46 :: b)%N with (([42] ++ [46]) ++ b)%N.
      constructor; [| now apply lang_body].
      apply L_QuestSome.
      constructor; constructor; rewrite literal_class by lia; apply N.eqb_refl.
Qed.

Lemma MatchString_hostnameRegexp (name : string) :
  MatchString hostnameRegexp name = hostnameShape (runes (bytes_of name)).
Proof.
  unfold MatchString. apply eq_true_iff_eq.
  rewrite matches_lang. apply lang_hostnameRegexp.
Qed.

(** * The grammar of the specification is within the pattern *)

Lemma splitDots_cons (b : list rune) : exists l ls, splitDots b = l :: ls.
Proof.
  destruct b as [| c b]; simpl; [eauto |].
  destruct (c =? 46)%N; [eauto |].
  destruct (splitDots b); eauto.
Qed.

Lemma labelChar_inner (c : rune) : labelChar c = true -> innerChar c = true.
Proof.
  unfold labelChar, innerChar, edgeChar. intro H.
  apply orb_prop in H as [H | H]; [apply orb_prop in H as [H | H] |];
    rewrite H; repeat rewrite ?orb_true_r, ?orb_true_l; reflexivity.
Qed.

Lemma splitDots_inner (b : list rune) :
  forallb (forallb labelChar) (splitDots b) = true -> forallb innerChar b = true.
Proof.
  induction b as [| c b IH]; simpl; [reflexivity |].
  destruct (N.eqb_spec c 46) as [-> | Hc].
  - simpl. exact IH.
  - destruct (splitDots_cons b) as (l & ls & E). rewrite E in *. simpl.
    intro H. apply andb_prop in H as [H Hls]. apply andb_prop in H as [Hc' Hl].
    rewrite (labelChar_inner _ Hc'). apply IH. simpl. now rewrite Hl, Hls.
Qed.

Lemma specLabel_chars (l : list rune) :
  specLabel l = true -> forallb labelChar l = true.
Proof.
  destruct l as [| a l]; [discriminate |].
  unfold specLabel. intro H. now apply andb_prop in H as [_ H].
Qed.

Lemma forallb_weaken {A} (f g : A -> bool) (l : list A) :
  (forall x, f x = true -> g x = true) -> forallb f l = true -> forallb g l = true.
Proof.
  intro H. induction l as [| x l IH]; simpl; [reflexivity |].
  intro E. apply andb_prop in E as [Ex El]. now rewrite (H _ Ex), IH.
Qed.

Lemma last_default {A} (l : list A) (d d' : A) : l <> [] -> last l d = last l d'.
Proof.
  induction l as [| x l IH]; [congruence |].
  intros _. destruct l as [| y l]; [reflexivity |].
  change (last (y :: l) d = last (y :: l) d'). apply IH. discriminate.
Qed.

Lemma splitDots_nil (b : list rune) : splitDots b = [[]] -> b = [].
Proof.
  destruct b as [| c b]; [reflexivity |]. simpl.
  destruct (c =? 46)%N.
  - destruct (splitDots_cons b) as (l & ls & E). rewrite E. discriminate.
  - destruct (splitDots b); discriminate.
Qed.

Lemma splitDots_last (b : list rune) : forall d,
  last (splitDots b) [] <> [] ->
  b <> [] /\ last b d = last (last (splitDots b) []) d.
Proof.
  induction b as [| c b IH]; intros d; simpl; [congruence |].
  destruct (splitDots_cons b) as (l & ls & E).
  destruct (N.eqb_spec c 46) as [-> | Hc].
  - rewrite E in *. intro H.
    change (last ([] :: l :: ls) []) with (last (l :: ls) []) in *.
    destruct (IH d H) as [Hb Hl]. split; [discriminate |].
    destruct b; [congruence | exact Hl].
  - rewrite E in *. intro H. split; [discriminate |].
    destruct ls as [| l' ls].
    + simpl. destruct b as [| c' b']; [simpl in E; now injection E as <- |].
      destruct l as [| x l].
      * apply splitDots_nil in E. discriminate.
      * destruct (IH d ltac:(simpl; discriminate)) as [_ Hl]. exact Hl.
    + change (last ((c :: l) :: l' :: ls) []) with (last (l :: l' :: ls) []) in *.
      destruct (IH d H) as [Hb Hl].
      destruct b; [congruence | exact Hl].
Qed.

Lemma forallb_last {A} (f : A -> bool) (l : list A) (d : A) :
  l <> [] -> forallb f l = true -> f (last l d) = true.
Proof.
  induction l as [| x l IH]; [congruence |].
  intros _ H. simpl in H. apply andb_prop in H as [Hx Hl].
  destruct l as [| y l]; [exact Hx |].
  change (f (last (y :: l) d) = true). apply IH; [discriminate | exact Hl].
Qed.

Lemma alnum_edge (c : rune) : alnum c = true -> edgeChar c = true.
Proof. unfold edgeChar. intros ->. reflexivity. Qed.

Lemma spec_body (b : list rune) :
  forallb specLabel (splitDots b) = true -> nameBody b = true.
Proof.
  intro H.
  assert (Hin : forallb innerChar b = true).
  { apply splitDots_inner. revert H. apply forallb_weaken, specLabel_chars. }
  destruct (splitDots_cons b) as (l & ls & E).
  assert (HL : specLabel (last (splitDots b) []) = true).
  { apply forallb_last; [rewrite E; discriminate | exact H]. }
  destruct (last (splitDots b) []) as [| z L] eqn:EL; [discriminate |].
  destruct b as [| a v]; [discriminate |].
  unfold nameBody. rewrite Hin, andb_true_r.
  apply andb_true_intro. split.
  - simpl in H. destruct (N.eqb_spec a 46) as [-> | Ha].
    + simpl in H. discriminate.
    + destruct (splitDots v); simpl in H;
        apply andb_prop in H as [H _]; apply andb_prop in H as [H _];
        apply andb_prop in H as [H _]; now apply alnum_edge.
  - destruct (splitDots_last (a :: v) a) as [_ Hl]; [rewrite EL; discriminate |].
    rewrite Hl, EL. rewrite (@last_default _ (z :: L) a z) by discriminate.
    unfold specLabel in HL.
    apply andb_prop in HL as [HL _]. apply andb_prop in HL as [_ HL].
    now apply alnum_edge.
Qed.

Lemma spec_shape (s : list rune) :
  specHostname s = true -> hostnameShape s = true.
Proof.
  unfold specHostname, hostnameShape.
  destruct s as [| c1 [| c2 b]]; try (intro H; now rewrite (spec_body _ H)).
  destruct ((c1 =? 42)%N && (c2 =? 46)%N); intro H; rewrite (spec_body _ H);
    [apply orb_true_r | reflexivity].
Qed.

(** * The methods, case by case *)

Ltac unfold_M :=
  cbv [bind ret get put emit log_Fatal log_Print panic call os_MkdirAll
       fatalIfErr installPlatform uninstallPlatform makeCert loadCA].

Lemma check_cases (w : World) (m : mkcert) :
  check w m =
  if ignoreCheckFailure m then ([], Returned true m)
  else match caCert m with
       | None => ([], Panic)
       | Some c => ([EvVerify c], Returned (Verify w c) m)
       end.
Proof.
  unfold check. unfold_M.
  destruct (ignoreCheckFailure m); [reflexivity |].
  destruct (caCert m); reflexivity.
Qed.

Lemma install_cases (w : World) (m : mkcert) :
  install w m =
  if ignoreCheckFailure m then ([], Returned tt m)
  else match caCert m with
       | None => ([], Panic)
       | Some c =>
           if Verify w c then ([EvVerify c], Returned tt m)
           else if installPlatform_returns w then
             ([EvVerify c; EvCall InstallPlatform; EvLog NowInstalled],
              Returned tt (set_ignoreCheckFailure m true))
           else ([EvVerify c; EvCall InstallPlatform], Fatal (ExitIn InstallPlatform))
       end.
Proof.
  unfold install, check. unfold_M.
  destruct (ignoreCheckFailure m); [reflexivity |].
  destruct (caCert m) as [c |]; [| reflexivity].
  destruct (Verify w c); [reflexivity |].
  destruct (installPlatform_returns w); reflexivity.
Qed.

Lemma uninstall_cases (w : World) (m : mkcert) :
  uninstall w m =
  if uninstallPlatform_returns w then
    ([EvCall UninstallPlatform; EvLog NowUninstalled], Returned tt m)
  else ([EvCall UninstallPlatform], Fatal (ExitIn UninstallPlatform)).
Proof.
  unfold uninstall. unfold_M.
  destruct (uninstallPlatform_returns w); reflexivity.
Qed.

Lemma Run_names_cases (args : list string) :
  Run_names args =
  match find (fun name => negb (byIP name || MatchString hostnameRegexp name)) args with
  | None => ret tt
  | Some name => log_Fatal (InvalidName name)
  end.
Proof.
  induction args as [| name rest IH]; simpl; [reflexivity |].
  unfold byIP.
  destruct (isNil (net.ParseIP name)); simpl; [| exact IH].
  destruct (MatchString hostnameRegexp name); simpl; [exact IH | reflexivity].
Qed.

(** Every way through [Run], one goal each. *)
Ltac run_cases w args m :=
  unfold Run; rewrite Run_names_cases;
  destruct (find (fun name => negb (byIP name || MatchString hostnameRegexp name)) args)
    as [bad |] eqn:Efind;
  unfold_M;
  (destruct (getCAROOT w =? "") eqn:Eroot; simpl; rewrite ?Eroot;
   [| destruct (MkdirAll w (getCAROOT w)) as [mkErr |] eqn:Emk; simpl;
      [| destruct (loadCA_outcome w (getCAROOT w)) as [[rootCert rootKey] |] eqn:Eload;
         simpl;
         [ destruct (installMode m) eqn:Ei; [| destruct (uninstallMode m) eqn:Eu];
           rewrite ?install_cases, ?check_cases, ?uninstall_cases; simpl;
           repeat match goal with
             | |- context [ignoreCheckFailure m] =>
                 destruct (ignoreCheckFailure m) eqn:Eig; simpl
             | |- context [Verify w ?x] => destruct (Verify w x) eqn:Ev; simpl
             | |- context [installPlatform_returns w] =>
                 destruct (installPlatform_returns w) eqn:Eip; simpl
             | |- context [uninstallPlatform_returns w] =>
                 destruct (uninstallPlatform_returns w) eqn:Eup; simpl
             end;
           destruct args as [| name rest]; simpl;
           repeat match goal with
             | |- context [makeCert_returns w ?a] =>
                 destruct (makeCert_returns w a) eqn:Emc; simpl
             end
         |]]]).

(** After [run_cases]: drop the impossible ways, identify what the
    hypotheses name, and use the equations of the case. *)
Ltac tidy :=
  try congruence;
  repeat match goal with
         | H : Some (_, _) = Some (_, _) |- _ => injection H as ? ?; subst
         | H : Some _ = Some _ |- _ => injection H as ?; subst
         end;
  repeat match goal with
         | H : Verify _ _ = _ |- _ => rewrite H
         end;
  try reflexivity.

Lemma eqb_empty_false (s : string) : s <> "" -> (s =? "") = false.
Proof. intro H. now apply String.eqb_neq. Qed.

(** [Run] in the passive mode, once the authority is loaded. *)
Lemma Run_passive (w : World) (args : list string) (m : mkcert)
      (c : Certificate) (k : PrivateKey) :
  installMode m = false -> uninstallMode m = false ->
  ignoreCheckFailure m = false ->
  getCAROOT w <> "" ->
  MkdirAll w (getCAROOT w) = None ->
  loadCA_outcome w (getCAROOT w) = Some (c, k) ->
  Run w args m =
  let m1 := set_ca (set_CAROOT m (getCAROOT w)) c k in
  let rest :=
    match args with
    | [] => ([EvLog Usage], Returned tt m1)
    | _ :: _ =>
        match find (fun name => negb (byIP name || MatchString hostnameRegexp name)) args with
        | Some bad => ([], Fatal (InvalidName bad))
        | None =>
            ([EvCall (MakeCert args)],
             if makeCert_returns w args then Returned tt m1
             else Fatal (ExitIn (MakeCert args)))
        end
    end in
  ([EvMkdirAll (getCAROOT w) perm0755; EvCall LoadCA; EvVerify c]
     ++ (if Verify w c then [] else [EvLog NotInstalledWarning; EvLog RunInstallHint])
     ++ fst rest,
   snd rest).
Proof.
  intros Hi Hu Hig Hroot Hmk Hload. apply eqb_empty_false in Hroot.
  run_cases w args m; try congruence.
  all: tidy.
Qed.

(** * The claims *)

(** ** Identifier validation *)

(** C1, as amended.  For every name, the loop of [Run] lets it through
    exactly when [net.ParseIP] accepts it or its runes have the shape
    [hostnameShape]: an optional leading [*.], then a non-empty run of
    letters, digits, underscore, hyphen and dot that neither starts nor ends
    with a dot (letters in either case, with U+017F and U+212A, which fold
    to s and k); any other name ends the run with the fatal error that names
    it.  Every name of the specification's grammar is let through, and the
    empty name and [exa mple.com] are rejected. *)
Theorem Run_names_decides (name : string) :
  Run_names [name] =
    (if byIP name || hostnameShape (runes (bytes_of name)) then ret tt
     else log_Fatal (InvalidName name))
  /\ (specValid name = true -> Run_names [name] = ret tt)
  /\ Run_names [""] = log_Fatal (InvalidName "")
  /\ Run_names ["exa mple.com"] = log_Fatal (InvalidName "exa mple.com").
Proof.
  assert (E : Run_names [name] =
              if byIP name || hostnameShape (runes (bytes_of name)) then ret tt
              else log_Fatal (InvalidName name)).
  { rewrite <- MatchString_hostnameRegexp. simpl. unfold byIP.
    destruct (isNil (net.ParseIP name)); simpl; [| reflexivity].
    destruct (MatchString hostnameRegexp name); reflexivity. }
  split; [exact E |]. split; [| split; reflexivity].
  intro H. rewrite E. unfold specValid in H.
  apply orb_prop in H as [H | H]; [now rewrite H |].
  rewrite (spec_shape _ H). now rewrite orb_true_r.
Qed.

Lemma Run_names_decides_witness :
  specValid "*.example.com" = true /\ Run_names ["*.example.com"] = ret tt.
Proof.
  split; [reflexivity |].
  apply (proj1 (proj2 (Run_names_decides "*.example.com"))). reflexivity.
Defined.

(** C1, as stated, fails: [-foo] and [foo_bar..baz] are neither IP
    literals nor names of the specification's grammar, and the loop of [Run]
    lets both through. *)
Lemma Run_names_lets_hyphen_and_empty_label :
  specValid "-foo" = false /\ Run_names ["-foo"] = ret tt
  /\ specValid "foo_bar..baz" = false /\ Run_names ["foo_bar..baz"] = ret tt.
Proof. repeat split; reflexivity. Qed.

(** ** The storage root *)

(** C2: the code departs from the claim.  On a Windows host with neither
    CAROOT nor LocalAppData set, [getCAROOT] joins the empty directory with
    the tool's name and returns the relative path [mkcert], not the empty
    path; [Run] then goes on to create that directory. *)
Theorem getCAROOT_windows_unset (w : World) :
  GOOS w = "windows" ->
  Getenv w "CAROOT" = "" ->
  Getenv w "LocalAppData" = "" ->
  Join w [""; "mkcert"] = "mkcert" ->
  getCAROOT w = "mkcert"
  /\ forall args m, exists t r, Run w args m = (EvMkdirAll "mkcert" perm0755 :: t, r).
Proof.
  intros Hos Hca Hlad Hjoin.
  assert (E : getCAROOT w = "mkcert").
  { unfold getCAROOT. rewrite Hca. simpl. rewrite Hos. simpl.
    now rewrite Hlad. }
  split; [exact E |]. intros args m.
  run_cases w args m; rewrite E in *; try discriminate; eauto.
Qed.

Lemma getCAROOT_windows_unset_witness :
  getCAROOT (sampleWorld "windows" noEnv false) = "mkcert"
  /\ forall args m, exists t r,
       Run (sampleWorld "windows" noEnv false) args m
       = (EvMkdirAll "mkcert" perm0755 :: t, r).
Proof. apply getCAROOT_windows_unset; reflexivity. Defined.

(** C7: when CAROOT is set to a non-empty path [P], [getCAROOT] returns
    [P] itself, whatever the operating system and the rest of the
    environment are; nothing is joined to it and nothing is looked up. *)
Theorem getCAROOT_override (w : World) (P : string) :
  Getenv w "CAROOT" = P -> P <> "" -> getCAROOT w = P.
Proof.
  intros HP Hne. unfold getCAROOT. rewrite HP.
  now rewrite (eqb_empty_false Hne).
Qed.

Lemma getCAROOT_override_witness :
  getCAROOT (sampleWorld "windows" (caroot_env "/srv/ca") false) = "/srv/ca".
Proof. apply getCAROOT_override; [reflexivity | discriminate]. Defined.

(** ** Mode flags *)

(** C6: with both -install and -uninstall set, [main] ends at once with the
    fatal error about the two flags, whatever the host and the arguments:
    the trace is empty, so no directory is created, no authority loaded and
    no trust store touched. *)
Theorem main_both_modes (w : World) (args : list string) :
  main w true true args = ([], Fatal BothModes).
Proof. reflexivity. Qed.

Lemma forallb_find_none {A} (f : A -> bool) (l : list A) :
  forallb f l = true -> find (fun x => negb (f x)) l = None.
Proof.
  induction l as [| x l IH]; simpl; [reflexivity |].
  intro H. apply andb_prop in H as [-> Hl]. simpl. now apply IH.
Qed.

(** C3, as amended.  In every invocation the trace never holds both the
    platform installer and the platform uninstaller, and a trace with the
    uninstaller holds neither a verification nor a certificate issuance.
    Installer and issuance occur in one trace only when -install is set
    without -uninstall and there is at least one positional argument.  In
    that mode, with every name valid, once the root is resolved, the
    directory made and the authority loaded, the run verifies the authority
    and then: if it verifies, issues without calling the installer;
    otherwise calls the platform installer and, when that returns, logs the
    success and issues.  So one invocation does install and then issue. *)
Theorem main_activities (w : World) (i u : bool) (args : list string) :
  let t := fst (main w i u args) in
  installs t && uninstalls t = false
  /\ uninstalls t && issues t = false
  /\ uninstalls t && verifies t = false
  /\ (installs t && issues t = true -> i = true /\ u = false /\ args <> [])
  /\ (forall c k,
      i = true -> u = false -> args <> [] ->
      forallb (fun name => byIP name || MatchString hostnameRegexp name) args = true ->
      getCAROOT w <> "" ->
      MkdirAll w (getCAROOT w) = None ->
      loadCA_outcome w (getCAROOT w) = Some (c, k) ->
      t = [EvMkdirAll (getCAROOT w) perm0755; EvCall LoadCA; EvVerify c]
          ++ (if Verify w c then [EvCall (MakeCert args)]
              else if installPlatform_returns w then
                     [EvCall InstallPlatform; EvLog NowInstalled;
                      EvCall (MakeCert args)]
                   else [EvCall InstallPlatform])).
Proof.
  cbv zeta.
  assert (H : installs (fst (main w i u args)) && uninstalls (fst (main w i u args))
              = false
              /\ uninstalls (fst (main w i u args)) && issues (fst (main w i u args))
                 = false
              /\ uninstalls (fst (main w i u args)) && verifies (fst (main w i u args))
                 = false
              /\ (installs (fst (main w i u args)) && issues (fst (main w i u args))
                  = true -> i = true /\ u = false /\ args <> [])).
  { unfold main. destruct i, u; simpl andb; cbv iota.
    1: { simpl. repeat split; discriminate. }
    all: match goal with
         | |- context [Run ?w0 ?a ?m] => run_cases w0 a m
         end;
      repeat split; try reflexivity; try discriminate. }
  destruct H as (H1 & H2 & H3 & H4). repeat (split; [assumption |]).
  intros c k -> -> Hargs Hall Hroot Hmk Hload.
  apply forallb_find_none in Hall. apply eqb_empty_false in Hroot.
  unfold main; simpl andb; cbv iota.
  match goal with
  | |- context [Run ?w0 ?a ?m] => run_cases w0 a m
  end; tidy.
Qed.

Lemma main_activities_witness :
  fst (main (sampleWorld "linux" homeEnv false) true false ["example.com"])
  = [EvMkdirAll (getCAROOT (sampleWorld "linux" homeEnv false)) perm0755;
     EvCall LoadCA; EvVerify "rootCA.pem"]
    ++ [EvCall InstallPlatform; EvLog NowInstalled;
        EvCall (MakeCert ["example.com"])].
Proof.
  apply (proj2 (proj2 (proj2 (proj2
           (main_activities (sampleWorld "linux" homeEnv false) true false
                            ["example.com"]))))
           "rootCA.pem" "rootCA-key.pem");
    try reflexivity; discriminate.
Defined.

(** C3, as stated, fails: with -install and one name, on a host where the
    authority is not yet trusted, one invocation runs the platform installer
    and then issues the certificate. *)
Lemma main_installs_and_issues :
  main (sampleWorld "linux" homeEnv false) true false ["example.com"]
  = ([EvMkdirAll "/home/u/.local/share/mkcert" perm0755; EvCall LoadCA;
      EvVerify "rootCA.pem"; EvCall InstallPlatform; EvLog NowInstalled;
      EvCall (MakeCert ["example.com"])],
     Returned tt
       {| installMode := true; uninstallMode := false;
          CAROOT := "/home/u/.local/share/mkcert";
          caCert := Some "rootCA.pem"; caKey := Some "rootCA-key.pem";
          ignoreCheckFailure := true |})
  /\ installs (fst (main (sampleWorld "linux" homeEnv false) true false ["example.com"]))
     = true
  /\ issues (fst (main (sampleWorld "linux" homeEnv false) true false ["example.com"]))
     = true.
Proof. repeat split; reflexivity. Qed.

(** ** Install, uninstall, check *)

(** C4: in every state with the override flag set, [check] returns true
    without asking for a verification; and [install] never ends in the
    "Installing failed" fatal error, whatever the verification says: once
    the platform installer has returned, [install] sets the flag, logs the
    success and returns. *)
Theorem check_override (w : World) (m : mkcert) :
  (ignoreCheckFailure m = true -> check w m = ([], Returned true m))
  /\ snd (install w m) <> Fatal InstallingFailed
  /\ (forall c, ignoreCheckFailure m = false -> caCert m = Some c ->
      Verify w c = false -> installPlatform_returns w = true ->
      install w m =
      ([EvVerify c; EvCall InstallPlatform; EvLog NowInstalled],
       Returned tt (set_ignoreCheckFailure m true))).
Proof.
  rewrite check_cases, install_cases. repeat split.
  - now intros ->.
  - destruct (ignoreCheckFailure m); [discriminate |].
    destruct (caCert m) as [c |]; [| discriminate].
    destruct (Verify w c); [discriminate |].
    destruct (installPlatform_returns w); discriminate.
  - intros c -> -> -> ->. reflexivity.
Qed.

Lemma check_override_witness :
  check (sampleWorld "linux" homeEnv false)
        (set_ignoreCheckFailure (set_ca (freshReceiver true false) "rootCA.pem" "rootCA-key.pem") true)
  = ([], Returned true
           (set_ignoreCheckFailure (set_ca (freshReceiver true false) "rootCA.pem" "rootCA-key.pem") true)).
Proof.
  apply (proj1 (check_override (sampleWorld "linux" homeEnv false)
                  (set_ignoreCheckFailure
                     (set_ca (freshReceiver true false) "rootCA.pem" "rootCA-key.pem") true))).
  reflexivity.
Defined.

(** C5: when [check] returns true at the start of [install], [install]
    returns at once: its trace is that of the check (at most the one
    verification), the platform installer is not called, and the receiver,
    override flag included, is as it was. *)
Theorem install_idempotent (w : World) (m m' : mkcert) (t : trace) :
  check w m = (t, Returned true m') ->
  install w m = (t, Returned tt m)
  /\ m' = m
  /\ installs t = false
  /\ (t = [] \/ exists c, t = [EvVerify c]).
Proof.
  rewrite check_cases, install_cases.
  destruct (ignoreCheckFailure m).
  - intro H. injection H as <- <-. auto.
  - destruct (caCert m) as [c |]; [| discriminate].
    intro H. injection H as <- -> <-. repeat split; eauto.
Qed.

Lemma install_idempotent_witness :
  install (sampleWorld "linux" homeEnv true)
          (set_ca (freshReceiver true false) "rootCA.pem" "rootCA-key.pem")
  = ([EvVerify "rootCA.pem"],
     Returned tt (set_ca (freshReceiver true false) "rootCA.pem" "rootCA-key.pem")).
Proof.
  apply (@install_idempotent
           (sampleWorld "linux" homeEnv true)
           (set_ca (freshReceiver true false) "rootCA.pem" "rootCA-key.pem")
           (set_ca (freshReceiver true false) "rootCA.pem" "rootCA-key.pem")
           [EvVerify "rootCA.pem"]).
  reflexivity.
Defined.

(** C8: in uninstall mode [Run] never asks for a verification, neither
    before nor after the platform uninstaller.  Once the authority is loaded
    it calls the uninstaller and, when that returns, logs the success and
    returns; the outcome does not depend on what a verification would say
    nor on the override flag.  [uninstall] itself is the uninstaller call
    followed by the success line, in every state. *)
Theorem Run_uninstall (w : World) (args : list string) (m : mkcert) :
  installMode m = false -> uninstallMode m = true ->
  verifies (fst (Run w args m)) = false
  /\ (forall c k,
      getCAROOT w <> "" ->
      MkdirAll w (getCAROOT w) = None ->
      loadCA_outcome w (getCAROOT w) = Some (c, k) ->
      Run w args m =
      if uninstallPlatform_returns w then
        ([EvMkdirAll (getCAROOT w) perm0755; EvCall LoadCA;
          EvCall UninstallPlatform; EvLog NowUninstalled],
         Returned tt (set_ca (set_CAROOT m (getCAROOT w)) c k))
      else
        ([EvMkdirAll (getCAROOT w) perm0755; EvCall LoadCA;
          EvCall UninstallPlatform],
         Fatal (ExitIn UninstallPlatform)))
  /\ (forall m0,
      uninstall w m0 =
      if uninstallPlatform_returns w then
        ([EvCall UninstallPlatform; EvLog NowUninstalled], Returned tt m0)
      else ([EvCall UninstallPlatform], Fatal (ExitIn UninstallPlatform))).
Proof.
  intros Hi Hu. split; [| split].
  - run_cases w args m; tidy.
  - intros c k Hroot Hmk Hload. apply eqb_empty_false in Hroot.
    run_cases w args m; tidy.
  - intro m0. apply uninstall_cases.
Qed.

Lemma Run_uninstall_witness :
  verifies (fst (Run (sampleWorld "linux" homeEnv true) ["example.com"]
                     (freshReceiver false true))) = false.
Proof.
  apply (@Run_uninstall (sampleWorld "linux" homeEnv true) ["example.com"]
                        (freshReceiver false true)); reflexivity.
Defined.

(** C9: with neither mode set, an authority that does not verify only adds
    the two warning lines.  Against the same host where it does verify, the
    run has the same trace but for these two lines and ends the same way;
    with at least one name, all of them valid, it goes on to the certificate
    issuance. *)
Theorem Run_untrusted_advisory (w : World) (args : list string) (m : mkcert)
        (c : Certificate) (k : PrivateKey) :
  installMode m = false -> uninstallMode m = false ->
  ignoreCheckFailure m = false ->
  getCAROOT w <> "" ->
  MkdirAll w (getCAROOT w) = None ->
  loadCA_outcome w (getCAROOT w) = Some (c, k) ->
  Verify w c = false ->
  exists t r,
    Run w args m =
      ([EvMkdirAll (getCAROOT w) perm0755; EvCall LoadCA; EvVerify c;
        EvLog NotInstalledWarning; EvLog RunInstallHint] ++ t, r)
    /\ Run (with_Verify w true) args m =
      ([EvMkdirAll (getCAROOT w) perm0755; EvCall LoadCA; EvVerify c] ++ t, r)
    /\ (args <> [] ->
        forallb (fun name => byIP name || MatchString hostnameRegexp name) args = true ->
        t = [EvCall (MakeCert args)]).
Proof.
  intros Hi Hu Hig Hroot Hmk Hload Hv.
  rewrite (@Run_passive w args m c k Hi Hu Hig Hroot Hmk Hload).
  rewrite (@Run_passive (with_Verify w true) args m c k Hi Hu Hig Hroot Hmk Hload).
  cbv zeta. rewrite Hv. simpl Verify. cbv iota.
  eexists. eexists. split; [reflexivity |]. split; [reflexivity |].
  intros Hargs Hall. destruct args as [| name rest]; [congruence |].
  destruct (find _ (name :: rest)) as [bad |] eqn:Efind; [| reflexivity].
  apply find_some in Efind as [Hin Hbad].
  rewrite forallb_forall in Hall. rewrite (Hall _ Hin) in Hbad. discriminate.
Qed.

Lemma Run_untrusted_advisory_witness :
  exists t r,
    Run (sampleWorld "linux" homeEnv false) ["example.com"] (freshReceiver false false) =
      ([EvMkdirAll (getCAROOT (sampleWorld "linux" homeEnv false)) perm0755;
        EvCall LoadCA; EvVerify "rootCA.pem";
        EvLog NotInstalledWarning; EvLog RunInstallHint] ++ t, r)
    /\ Run (with_Verify (sampleWorld "linux" homeEnv false) true) ["example.com"]
           (freshReceiver false false) =
      ([EvMkdirAll (getCAROOT (sampleWorld "linux" homeEnv false)) perm0755;
        EvCall LoadCA; EvVerify "rootCA.pem"] ++ t, r)
    /\ (["example.com"] <> [] ->
        forallb (fun name => byIP name || MatchString hostnameRegexp name)
                ["example.com"] = true ->
        t = [EvCall (MakeCert ["example.com"])]).
Proof.
  apply (@Run_untrusted_advisory (sampleWorld "linux" homeEnv false)
           ["example.com"] (freshReceiver false false) "rootCA.pem" "rootCA-key.pem");
    try reflexivity.
  discriminate.
Defined.

(** C10: in every mode [Run] starts the same way.  An empty storage root
    is fatal before anything is done; otherwise the first thing done is
    [MkdirAll] on the root, and its failure is fatal with nothing else done;
    otherwise the authority is loaded next, and a load that ends the process
    leaves nothing else done.  So the platform uninstaller of an uninstall
    run is reached only after the root was resolved, the directory made and
    the authority loaded. *)
Theorem Run_preamble (w : World) (args : list string) (m : mkcert) :
  (getCAROOT w = "" -> Run w args m = ([], Fatal NoCAROOT))
  /\ (getCAROOT w <> "" -> forall e, MkdirAll w (getCAROOT w) = Some e ->
      Run w args m =
      ([EvMkdirAll (getCAROOT w) perm0755],
       Fatal (IfErr "failed to create the CAROOT" e)))
  /\ (getCAROOT w <> "" -> MkdirAll w (getCAROOT w) = None ->
      loadCA_outcome w (getCAROOT w) = None ->
      Run w args m =
      ([EvMkdirAll (getCAROOT w) perm0755; EvCall LoadCA], Fatal (ExitIn LoadCA)))
  /\ (getCAROOT w <> "" -> MkdirAll w (getCAROOT w) = None ->
      exists t r,
        Run w args m = (EvMkdirAll (getCAROOT w) perm0755 :: EvCall LoadCA :: t, r))
  /\ (uninstalls (fst (Run w args m)) = true ->
      getCAROOT w <> "" /\ MkdirAll w (getCAROOT w) = None
      /\ exists t,
          fst (Run w args m)
          = EvMkdirAll (getCAROOT w) perm0755 :: EvCall LoadCA :: t).
Proof.
  split; [| split; [| split; [| split]]].
  - intro H. apply String.eqb_eq in H. run_cases w args m; tidy.
  - intros H e He. apply eqb_empty_false in H. run_cases w args m; tidy.
  - intros H Hmk Hl. apply eqb_empty_false in H. run_cases w args m; tidy.
  - intros H Hmk. apply eqb_empty_false in H. run_cases w args m; tidy; eauto.
  - run_cases w args m; try discriminate; intros _;
      (split; [intro E; rewrite E in Eroot; discriminate |]);
      (split; [reflexivity | eauto]).
Qed.

Lemma Run_preamble_witness :
  Run (sampleWorld "darwin" noEnv true) [] (freshReceiver false true)
  = ([], Fatal NoCAROOT)
  /\ Run (with_MkdirAll (sampleWorld "linux" homeEnv true)
                        (fun _ => Some "permission denied"))
         [] (freshReceiver false true)
     = ([EvMkdirAll "/home/u/.local/share/mkcert" perm0755],
        Fatal (IfErr "failed to create the CAROOT" "permission denied"))
  /\ Run (with_loadCA (sampleWorld "linux" homeEnv true) (fun _ => None))
         [] (freshReceiver false true)
     = ([EvMkdirAll "/home/u/.local/share/mkcert" perm0755; EvCall LoadCA],
        Fatal (ExitIn LoadCA))
  /\ (exists t r,
        Run (sampleWorld "linux" homeEnv true) [] (freshReceiver false true)
        = (EvMkdirAll "/home/u/.local/share/mkcert" perm0755 :: EvCall LoadCA :: t, r))
  /\ (getCAROOT (sampleWorld "linux" homeEnv true) <> ""
      /\ MkdirAll (sampleWorld "linux" homeEnv true)
                  (getCAROOT (sampleWorld "linux" homeEnv true)) = None
      /\ exists t,
          fst (Run (sampleWorld "linux" homeEnv true) [] (freshReceiver false true))
          = EvMkdirAll "/home/u/.local/share/mkcert" perm0755 :: EvCall LoadCA :: t).
Proof.
  split; [| split; [| split; [| split]]].
  - apply (proj1 (Run_preamble (sampleWorld "darwin" noEnv true) []
                               (freshReceiver false true))).
    reflexivity.
  - apply (proj1 (proj2 (Run_preamble
                           (with_MkdirAll (sampleWorld "linux" homeEnv true)
                                          (fun _ => Some "permission denied"))
                           [] (freshReceiver false true))));
      [discriminate | reflexivity].
  - apply (proj1 (proj2 (proj2 (Run_preamble
                                  (with_loadCA (sampleWorld "linux" homeEnv true)
                                               (fun _ => None))
                                  [] (freshReceiver false true)))));
      [discriminate | reflexivity | reflexivity].
  - apply (proj1 (proj2 (proj2 (proj2 (Run_preamble
                                         (sampleWorld "linux" homeEnv true)
                                         [] (freshReceiver false true))))));
      [discriminate | reflexivity].
  - apply (proj2 (proj2 (proj2 (proj2 (Run_preamble
                                         (sampleWorld "linux" homeEnv true)
                                         [] (freshReceiver false true)))))).
    reflexivity.
Defined.

(** * More about the run *)

Lemma find_none_forallb {A} (f : A -> bool) (l : list A) :
  find (fun x => negb (f x)) l = None -> forallb f l = true.
Proof.
  induction l as [| x l IH]; simpl; [reflexivity |].
  destruct (f x); simpl; [exact IH | discriminate].
Qed.

Lemma find_first {A} (f : A -> bool) (l : list A) (x : A) :
  find (fun y => negb (f y)) l = Some x ->
  exists pre post,
    l = pre ++ x :: post /\ forallb f pre = true /\ f x = false.
Proof.
  induction l as [| y l IH]; simpl; [discriminate |].
  destruct (f y) eqn:Ey; simpl.
  - intro H. destruct (IH H) as (pre & post & -> & Hpre & Hx).
    exists (y :: pre), post. simpl. now rewrite Ey.
  - intro H. injection H as <-. exists [], l. auto.
Qed.

(** X2: every way an invocation ends early has its cause.  It never
    panics on a missing certificate and never reports "Installing failed";
    the flags error means both flags were set; the missing-root error means
    [getCAROOT] returned the empty path; the only [fatalIfErr] is the failed
    [MkdirAll] of the root, with its error text; a rejected name is one of
    the arguments, fails both tests, and the mode is not uninstall; and a
    collaborator ends the process only if the host says it does not
    return. *)
Theorem main_fatal_causes (w : World) (i u : bool) (args : list string) :
  match snd (main w i u args) with
  | Returned _ _ => i && u = false
  | Panic => False
  | Fatal InstallingFailed => False
  | Fatal BothModes => i = true /\ u = true
  | Fatal NoCAROOT => getCAROOT w = ""
  | Fatal (IfErr msg e) =>
      msg = "failed to create the CAROOT" /\ MkdirAll w (getCAROOT w) = Some e
  | Fatal (InvalidName name) => In name args /\ nameOK name = false /\ u = false
  | Fatal (ExitIn LoadCA) => loadCA_outcome w (getCAROOT w) = None
  | Fatal (ExitIn InstallPlatform) => installPlatform_returns w = false /\ i = true
  | Fatal (ExitIn UninstallPlatform) => uninstallPlatform_returns w = false /\ u = true
  | Fatal (ExitIn (MakeCert hosts)) => hosts = args /\ makeCert_returns w args = false
  end.
Proof.
  unfold main. destruct i, u; simpl andb; cbv iota.
  1: { simpl. auto. }
  all: match goal with
       | |- context [Run ?w0 ?a ?m] => run_cases w0 a m
       end; auto.
  all: try (apply String.eqb_eq; assumption).
  all: try (apply find_some in Efind as [Hin Hbad];
            apply negb_true_iff in Hbad; now auto).
Qed.

(** X3: when an invocation returns, the receiver holds the resolved,
    non-empty storage root and the certificate and key the load gave, both
    present; the mode flags are those of the command line; and the override
    flag is set exactly when the platform installer was called. *)
Theorem main_final_receiver (w : World) (i u : bool) (args : list string)
        (t : trace) (m' : mkcert) :
  main w i u args = (t, Returned tt m') ->
  CAROOT m' = getCAROOT w /\ CAROOT m' <> ""
  /\ (exists c k, loadCA_outcome w (getCAROOT w) = Some (c, k)
                  /\ caCert m' = Some c /\ caKey m' = Some k)
  /\ installMode m' = i /\ uninstallMode m' = u
  /\ ignoreCheckFailure m' = installs t.
Proof.
  unfold main. destruct i, u; simpl andb; cbv iota.
  1: { discriminate. }
  all: match goal with
       | |- context [Run ?w0 ?a ?m] => run_cases w0 a m
       end; intro H; try discriminate; injection H as <- <-;
    apply String.eqb_neq in Eroot; simpl; eauto 10.
Qed.

Lemma main_final_receiver_witness :
  CAROOT (set_ca (set_CAROOT (freshReceiver false false) "/home/u/.local/share/mkcert")
                 "rootCA.pem" "rootCA-key.pem")
  = getCAROOT (sampleWorld "linux" homeEnv true).
Proof.
  apply (@main_final_receiver (sampleWorld "linux" homeEnv true) false false
           ["example.com"]
           [EvMkdirAll "/home/u/.local/share/mkcert" perm0755; EvCall LoadCA;
            EvVerify "rootCA.pem"; EvCall (MakeCert ["example.com"])]).
  reflexivity.
Defined.

(** X4: in uninstall mode the positional arguments play no part: the run
    is the same as with none, so names are neither validated nor issued,
    and an invalid name is no error. *)
Theorem Run_uninstall_ignores_args (w : World) (args : list string) (m : mkcert) :
  installMode m = false -> uninstallMode m = true ->
  Run w args m = Run w [] m.
Proof.
  intros Hi Hu.
  assert (E : forall a, Run w a m = Run w [] m \/ uninstallMode m = false
                        \/ installMode m = true).
  { intro a. run_cases w a m; auto.
    all: left.
    all: unfold Run; unfold_M; simpl; rewrite ?Eroot, ?Emk, ?Eload; simpl;
      rewrite ?Ei, ?Eu, ?uninstall_cases, ?Eup; reflexivity. }
  destruct (E args) as [H | [H | H]]; [exact H | congruence | congruence].
Qed.

Lemma Run_uninstall_ignores_args_witness :
  Run (sampleWorld "linux" homeEnv true) ["not a name"] (freshReceiver false true)
  = Run (sampleWorld "linux" homeEnv true) [] (freshReceiver false true).
Proof. apply Run_uninstall_ignores_args; reflexivity. Defined.

(** X5: a run that issues does so as its very last step and for the whole
    argument list as given: the list is not empty, every name of it passed
    the test, the mode is not uninstall, and nothing before that step is an
    issuance. *)
Theorem main_issues_last (w : World) (i u : bool) (args : list string) :
  issues (fst (main w i u args)) = true ->
  last (fst (main w i u args)) (EvLog Usage) = EvCall (MakeCert args)
  /\ issues (removelast (fst (main w i u args))) = false
  /\ args <> [] /\ forallb nameOK args = true /\ u = false.
Proof.
  unfold main. destruct i, u; simpl andb; cbv iota.
  1: { discriminate. }
  all: match goal with
       | |- context [Run ?w0 ?a ?m] => run_cases w0 a m
       end; intro H; try discriminate;
    (repeat split; [discriminate |]);
    match goal with
    | E : find _ ?l = None |- _ => exact (@find_none_forallb _ nameOK l E)
    end.
Qed.

Lemma main_issues_last_witness :
  last (fst (main (sampleWorld "linux" homeEnv true) false false ["::1"; "localhost"]))
       (EvLog Usage)
  = EvCall (MakeCert ["::1"; "localhost"]).
Proof.
  apply (@main_issues_last (sampleWorld "linux" homeEnv true) false false
           ["::1"; "localhost"]).
  reflexivity.
Defined.

(** X6: names are tested only after the mode step.  Outside uninstall
    mode, once the authority is loaded and the install step (if any) came
    through, a list with a name that fails the test ends the run with the
    fatal error naming the first such name and nothing is issued; in install
    mode the platform installer has run by then whenever the authority did
    not verify. *)
Theorem main_invalid_name (w : World) (i : bool) (args : list string)
        (offender : string) (c : Certificate) (k : PrivateKey) :
  getCAROOT w <> "" ->
  MkdirAll w (getCAROOT w) = None ->
  loadCA_outcome w (getCAROOT w) = Some (c, k) ->
  (i = true -> Verify w c = false -> installPlatform_returns w = true) ->
  find (fun name => negb (nameOK name)) args = Some offender ->
  snd (main w i false args) = Fatal (InvalidName offender)
  /\ issues (fst (main w i false args)) = false
  /\ installs (fst (main w i false args)) = i && negb (Verify w c).
Proof.
  intros Hroot Hmk Hload Hinst Hfind. apply eqb_empty_false in Hroot.
  unfold nameOK in Hfind.
  unfold main. destruct i; simpl andb; cbv iota.
  all: match goal with
       | |- context [Run ?w0 ?a ?m] => run_cases w0 a m
       end; tidy; try discriminate.
  all: try (injection Hfind as <-); tidy; auto.
  all: assert (Hf : false = true) by (apply Hinst; [reflexivity | assumption]);
    discriminate.
Qed.

Lemma main_invalid_name_witness :
  snd (main (sampleWorld "linux" homeEnv false) true false ["localhost"; "exa mple.com"])
  = Fatal (InvalidName "exa mple.com")
  /\ issues (fst (main (sampleWorld "linux" homeEnv false) true false
                       ["localhost"; "exa mple.com"])) = false
  /\ installs (fst (main (sampleWorld "linux" homeEnv false) true false
                         ["localhost"; "exa mple.com"])) = true && negb false.
Proof.
  apply (@main_invalid_name (sampleWorld "linux" homeEnv false) true
           ["localhost"; "exa mple.com"] "exa mple.com" "rootCA.pem" "rootCA-key.pem");
    try reflexivity.
  discriminate.
Defined.

(** X7: what [install] leaves behind.  Whenever [install] returns, a
    [check] in the state it leaves returns true and changes nothing, and a
    second [install] in that state returns without calling the platform
    installer. *)
Theorem install_then_check (w : World) (m m' : mkcert) (t : trace) :
  install w m = (t, Returned tt m') ->
  snd (check w m') = Returned true m'
  /\ snd (install w m') = Returned tt m'
  /\ installs (fst (install w m')) = false.
Proof.
  rewrite !install_cases, check_cases.
  destruct (ignoreCheckFailure m) eqn:Eig.
  - intro H. injection H as <- <-. rewrite Eig. auto.
  - destruct (caCert m) as [c |] eqn:Ec; [| discriminate].
    destruct (Verify w c) eqn:Ev.
    + intro H. injection H as <- <-. rewrite Eig, Ec, Ev. auto.
    + destruct (installPlatform_returns w); [| discriminate].
      intro H. injection H as <- <-. simpl. auto.
Qed.

Lemma install_then_check_witness :
  snd (check (sampleWorld "linux" homeEnv false)
             (set_ignoreCheckFailure
                (set_ca (freshReceiver true false) "rootCA.pem" "rootCA-key.pem") true))
  = Returned true
      (set_ignoreCheckFailure
         (set_ca (freshReceiver true false) "rootCA.pem" "rootCA-key.pem") true).
Proof.
  apply (@install_then_check (sampleWorld "linux" homeEnv false)
           (set_ca (freshReceiver true false) "rootCA.pem" "rootCA-key.pem")
           (set_ignoreCheckFailure
              (set_ca (freshReceiver true false) "rootCA.pem" "rootCA-key.pem") true)
           [EvVerify "rootCA.pem"; EvCall InstallPlatform; EvLog NowInstalled]).
  reflexivity.
Defined.

Ltac bool_close :=
  repeat (rewrite ?andb_false_r, ?andb_true_r; simpl); try reflexivity.

(** X8: the usage text is logged exactly when neither mode is set, there
    is no positional argument and the authority was loaded; in particular
    -install and -uninstall without arguments never log it. *)
Theorem main_usage (w : World) (i u : bool) (args : list string) :
  existsb (isLog Usage) (fst (main w i u args))
  = negb i && negb u && (List.length args =? 0)%nat
    && negb (getCAROOT w =? "")
    && isNil (MkdirAll w (getCAROOT w))
    && negb (isNil (loadCA_outcome w (getCAROOT w))).
Proof.
  unfold main. destruct i, u; simpl andb; cbv iota.
  1: { reflexivity. }
  all: match goal with
       | |- context [Run ?w0 ?a ?m] => run_cases w0 a m
       end; bool_close.
Qed.

(** X9: the two warning lines are logged together, and exactly when
    neither mode is set, the authority was loaded and it does not verify. *)
Theorem main_warnings (w : World) (i u : bool) (args : list string) :
  existsb (isLog NotInstalledWarning) (fst (main w i u args))
  = existsb (isLog RunInstallHint) (fst (main w i u args))
  /\ existsb (isLog NotInstalledWarning) (fst (main w i u args))
     = negb i && negb u
       && negb (getCAROOT w =? "")
       && isNil (MkdirAll w (getCAROOT w))
       && match loadCA_outcome w (getCAROOT w) with
          | Some (c, _) => negb (Verify w c)
          | None => false
          end.
Proof.
  unfold main. destruct i, u; simpl andb; cbv iota.
  1: { split; reflexivity. }
  all: match goal with
       | |- context [Run ?w0 ?a ?m] => run_cases w0 a m
       end; split; bool_close.
Qed.

(** X10: the trust store is touched only in the mode that asks for it.
    The platform installer is called only with -install alone and only
    after a verification that failed; the platform uninstaller only with
    -uninstall alone; with neither flag neither is called. *)
Theorem main_store_as_asked (w : World) (i u : bool) (args : list string) :
  installs (fst (main w i u args))
  = i && negb u && negb (getCAROOT w =? "")
    && isNil (MkdirAll w (getCAROOT w))
    && match loadCA_outcome w (getCAROOT w) with
       | Some (c, _) => negb (Verify w c)
       | None => false
       end
  /\ uninstalls (fst (main w i u args))
     = u && negb i && negb (getCAROOT w =? "")
       && isNil (MkdirAll w (getCAROOT w))
       && negb (isNil (loadCA_outcome w (getCAROOT w))).
Proof.
  unfold main. destruct i, u; simpl andb; cbv iota.
  1: { split; reflexivity. }
  all: match goal with
       | |- context [Run ?w0 ?a ?m] => run_cases w0 a m
       end; split; bool_close.
Qed.

(** X11: the loop over the names tests them in order and stops at the
    first that fails: either every name passes and the loop returns, or the
    list splits into names that pass, a first name that fails, and names
    that are never looked at, and the loop ends the process naming that
    first one.  Either way it logs nothing, calls nothing and leaves the
    receiver alone. *)
Theorem Run_names_first_offender (args : list string) (m : mkcert) :
  (forallb nameOK args = true /\ Run_names args m = ([], Returned tt m))
  \/ (exists pre offender post,
        args = pre ++ offender :: post
        /\ forallb nameOK pre = true /\ nameOK offender = false
        /\ Run_names args m = ([], Fatal (InvalidName offender))).
Proof.
  rewrite Run_names_cases.
  destruct (find _ args) as [offender |] eqn:E.
  - right. apply (find_first nameOK) in E as (pre & post & E & Hpre & Hx).
    exists pre, offender, post. auto.
  - left. split; [now apply find_none_forallb | reflexivity].
Qed.

(** ** More about the storage root *)

Lemma append_nonempty (a b : string) : a <> "" -> (a ++ b)%string <> "".
Proof. destruct a; [congruence | discriminate]. Qed.

Lemma concat_nonempty (sep : string) (l : list string) :
  l <> [] -> hd "" l <> "" -> String.concat sep l <> "".
Proof.
  destruct l as [| h t]; [congruence |]. intros _ Hh. simpl in *.
  destruct t; [exact Hh | now apply append_nonempty].
Qed.

Lemma joinClean_keeps (sep : string) (elem : list string) :
  joinClean sep elem = "" -> forall e, In e elem -> e = "".
Proof.
  unfold joinClean. intros H e He.
  destruct (String.eqb_spec e "") as [-> | Hne]; [reflexivity |].
  exfalso. revert H.
  induction elem as [| x elem IH]; [destruct He |].
  cbn [filter]. destruct (String.eqb_spec x "") as [-> | Hx]; cbn [negb].
  - destruct He as [<- | He]; [congruence | now apply IH].
  - apply concat_nonempty; [discriminate | exact Hx].
Qed.

(** X12: on a host whose [filepath.Join] gives the empty path only for
    empty elements, [getCAROOT] returns the empty path, which [Run] treats
    as fatal, exactly when CAROOT is not set, the host is not Windows, HOME
    is not set and, unless the host is macOS, XDG_DATA_HOME is not set
    either.  On Windows the result is never empty. *)
Theorem getCAROOT_empty_iff (w : World) :
  joinKeepsElements w ->
  (getCAROOT w = "" <->
   Getenv w "CAROOT" = "" /\ GOOS w <> "windows" /\ Getenv w "HOME" = ""
   /\ (GOOS w = "darwin" \/ Getenv w "XDG_DATA_HOME" = "")).
Proof.
  intro HJ.
  assert (Hmk : forall dir, Join w [dir; "mkcert"] <> "").
  { intros dir E. specialize (HJ _ E "mkcert"). simpl in HJ.
    assert (F : "mkcert" = "") by auto. discriminate. }
  unfold getCAROOT.
  destruct (String.eqb_spec (Getenv w "CAROOT") "") as [Eca | Eca]; simpl.
  2: { split; [congruence | tauto]. }
  destruct (String.eqb_spec (GOOS w) "windows") as [Ewin | Ewin].
  { split; [intro E; now apply Hmk in E | tauto]. }
  destruct (String.eqb_spec (GOOS w) "darwin") as [Edar | Edar].
  - destruct (String.eqb_spec (Getenv w "HOME") "") as [Eh | Eh].
    + tauto.
    + split; [intro E; now apply Hmk in E | tauto].
  - destruct (String.eqb_spec (Getenv w "XDG_DATA_HOME") "") as [Ex | Ex].
    + destruct (String.eqb_spec (Getenv w "HOME") "") as [Eh | Eh].
      * tauto.
      * split; [intro E; now apply Hmk in E | tauto].
    + split; [intro E; now apply Hmk in E | tauto].
Qed.

Lemma getCAROOT_empty_iff_witness :
  getCAROOT (sampleWorld "darwin" noEnv true) = "" <->
  Getenv (sampleWorld "darwin" noEnv true) "CAROOT" = ""
  /\ GOOS (sampleWorld "darwin" noEnv true) <> "windows"
  /\ Getenv (sampleWorld "darwin" noEnv true) "HOME" = ""
  /\ (GOOS (sampleWorld "darwin" noEnv true) = "darwin"
      \/ Getenv (sampleWorld "darwin" noEnv true) "XDG_DATA_HOME" = "").
Proof.
  apply getCAROOT_empty_iff. intro elem. apply joinClean_keeps.
Defined.

(** * More about the pattern *)

Lemma matches_hostnameShape (s : list rune) :
  matches (expr hostnameRegexp) s = hostnameShape s.
Proof.
  apply eq_true_iff_eq. rewrite matches_lang. apply lang_hostnameRegexp.
Qed.

Lemma nameBody_inner (b : list rune) :
  nameBody b = true -> forallb innerChar b = true.
Proof.
  destruct b as [| a v]; [discriminate |]. unfold nameBody.
  intro H. now apply andb_prop in H as [_ H].
Qed.

Lemma nameBody_no_star (b : list rune) : nameBody b = true -> ~ In 42%N b.
Proof.
  intros H Hin. apply nameBody_inner in H.
  rewrite forallb_forall in H. specialize (H _ Hin). discriminate.
Qed.

(** X13: a star is accepted only as the whole first label.  If the pattern
    matches a name in which a star occurs, the name is [*.] followed by a
    body without any star, and that body matches on its own. *)
Theorem hostnameRegexp_wildcard (name : string) :
  MatchString hostnameRegexp name = true ->
  In 42%N (runes (bytes_of name)) ->
  exists b,
    runes (bytes_of name) = 42%N :: 46%N :: b
    /\ ~ In 42%N b
    /\ matches (expr hostnameRegexp) b = true.
Proof.
  rewrite MatchString_hostnameRegexp. unfold hostnameShape.
  intros H Hin. apply orb_prop in H as [H | H].
  - now apply nameBody_no_star in H.
  - destruct (runes (bytes_of name)) as [| c1 [| c2 b]]; try discriminate.
    apply andb_prop in H as [H Hb]. apply andb_prop in H as [H1 H2].
    apply N.eqb_eq in H1, H2. subst c1 c2.
    exists b. split; [reflexivity |]. split; [now apply nameBody_no_star |].
    rewrite matches_hostnameShape. unfold hostnameShape. now rewrite Hb.
Qed.

Lemma hostnameRegexp_wildcard_witness :
  exists b,
    runes (bytes_of "*.example.com") = 42%N :: 46%N :: b
    /\ ~ In 42%N b
    /\ matches (expr hostnameRegexp) b = true.
Proof.
  apply hostnameRegexp_wildcard; [reflexivity | left; reflexivity].
Defined.

Lemma last_map {A B} (f : A -> B) (l : list A) (d : A) :
  last (map f l) (f d) = f (last l d).
Proof.
  induction l as [| x l IH]; [reflexivity |].
  simpl. destruct l; [reflexivity | exact IH].
Qed.

Lemma forallb_map {A B} (f : A -> B) (p : B -> bool) (l : list A) :
  forallb p (map f l) = forallb (fun x => p (f x)) l.
Proof.
  induction l as [| x l IH]; [reflexivity |]. simpl. now rewrite IH.
Qed.

Lemma edgeChar_toUpper (c : rune) : edgeChar (toUpper c) = edgeChar c.
Proof.
  unfold toUpper, between.
  destruct (N.leb_spec 97 c); destruct (N.leb_spec c 122); cbn [andb];
    unfold edgeChar, alnum, between; split_cmp.
Qed.

Lemma toUpper_star_dot (c : rune) :
  (toUpper c =? 42)%N = (c =? 42)%N /\ (toUpper c =? 46)%N = (c =? 46)%N.
Proof.
  unfold toUpper, between.
  destruct (N.leb_spec 97 c); destruct (N.leb_spec c 122); cbn [andb];
    split; split_cmp.
Qed.

Lemma nameBody_toUpper (b : list rune) : nameBody (map toUpper b) = nameBody b.
Proof.
  destruct b as [| a v]; [reflexivity |].
  change (edgeChar (toUpper a)
          && edgeChar (last (map toUpper (a :: v)) (toUpper a))
          && forallb innerChar (map toUpper (a :: v))
          = edgeChar a && edgeChar (last (a :: v) a) && forallb innerChar (a :: v)).
  rewrite last_map, forallb_map, !edgeChar_toUpper.
  f_equal. apply forallb_pointwise. intro c. unfold innerChar.
  now rewrite edgeChar_toUpper, (proj2 (toUpper_star_dot c)).
Qed.

(** X14: the pattern does not tell ASCII upper case from lower case:
    turning the letters a to z of a name into upper case does not change
    whether it matches. *)
Theorem hostnameRegexp_case (s : list rune) :
  matches (expr hostnameRegexp) (map toUpper s) = matches (expr hostnameRegexp) s.
Proof.
  rewrite !matches_hostnameShape. unfold hostnameShape.
  rewrite nameBody_toUpper. f_equal.
  destruct s as [| c1 [| c2 b]]; try reflexivity.
  change (map toUpper (c1 :: c2 :: b)) with (toUpper c1 :: toUpper c2 :: map toUpper b).
  cbv iota.
  now rewrite nameBody_toUpper, (proj1 (toUpper_star_dot c1)),
    (proj2 (toUpper_star_dot c2)).
Qed.

(** * Names with and without a colon *)

Lemma step_skips_continuations (b : byte) (s : list byte) :
  forallb (fun x => (128 <=? x)%N) (firstn (snd (step (b :: s)) - 1) s) = true.
Proof.
  unfold step, utf8.DecodeRuneInString, utf8.first, utf8.RuneSelf, utf8.cont.
  repeat (match goal with
          | |- context [if ?c then _ else _] => destruct c eqn:?
          | |- context [match ?l with [] => _ | _ :: _ => _ end] => destruct l
          end; simpl; try reflexivity).
  all: unfold between in *; simpl in *;
    repeat match goal with
           | H : negb _ = false |- _ => apply negb_false_iff in H
           | H : _ && _ = true |- _ => apply andb_prop in H as [? ?]
           | H : (_ <=? _)%N = true |- _ => apply N.leb_le in H
           end;
    rewrite ?andb_true_r;
    repeat (apply andb_true_intro; split); apply N.leb_le; lia.
Qed.

Lemma step_ascii (b : byte) (s : list byte) :
  (b <? 128)%N = true -> step (b :: s) = (b, 1).
Proof. unfold step, utf8.RuneSelf. now intros ->. Qed.

Lemma runes_upto_cons (n : nat) (b : byte) (s : list byte) :
  runes_upto (S n) (b :: s)
  = fst (step (b :: s)) :: runes_upto n (skipn (snd (step (b :: s)) - 1) s).
Proof.
  change (runes_upto (S n) (b :: s))
    with (let (r, wd) := step (b :: s) in r :: runes_upto n (skipn wd (b :: s))).
  pose proof (step_width b s) as Hw.
  destruct (step (b :: s)) as [r wd]. simpl in *.
  destruct wd as [| wd]; [lia |]. simpl. now rewrite Nat.sub_0_r.
Qed.

Lemma runes_cons_ascii (b : byte) (s : list byte) :
  (b <? 128)%N = true -> runes (b :: s) = b :: runes s.
Proof.
  intro Hb. unfold runes.
  change (List.length (b :: s)) with (S (List.length s)).
  now rewrite runes_upto_cons, (@step_ascii b s Hb).
Qed.

Lemma runes_ascii (s : list byte) :
  forallb (fun b => (b <? 128)%N) s = true -> runes s = s.
Proof.
  induction s as [| b s IH]; [reflexivity |]. simpl. intro H.
  apply andb_prop in H as [Hb Hs]. now rewrite (@runes_cons_ascii b s Hb), IH.
Qed.

(** A byte below 128 is never part of a longer encoding: it shows up among
    the runes. *)
Lemma runes_upto_keeps_ascii (c : byte) (n : nat) : forall s,
  List.length s <= n -> (c < 128)%N -> In c s -> In c (runes_upto n s).
Proof.
  induction n as [| n IH]; intros s Hn Hc Hin.
  - destruct s; [destruct Hin | simpl in Hn; lia].
  - destruct s as [| b s]; [destruct Hin |].
    rewrite runes_upto_cons.
    pose proof (step_skips_continuations b s) as Hk.
    destruct Hin as [<- | Hin].
    + rewrite step_ascii by now apply N.ltb_lt. now left.
    + right. set (k := snd (step (b :: s)) - 1) in *.
      apply IH; [| exact Hc |].
      * rewrite length_skipn. simpl in Hn. lia.
      * rewrite <- (firstn_skipn k s) in Hin. apply in_app_or in Hin as [Hin | Hin];
          [| exact Hin].
        rewrite forallb_forall in Hk. apply Hk, N.leb_le in Hin. lia.
Qed.

Lemma runes_keeps_ascii (c : byte) (s : list byte) :
  (c < 128)%N -> In c s -> In c (runes s).
Proof. intros Hc Hin. now apply runes_upto_keeps_ascii. Qed.

Lemma colon_no_match (name : string) :
  existsb (fun b => (b =? 58)%N) (bytes_of name) = true ->
  MatchString hostnameRegexp name = false.
Proof.
  intro H. apply existsb_exists in H as (c & Hin & Hc).
  apply N.eqb_eq in Hc. subst c.
  apply runes_keeps_ascii in Hin; [| lia].
  rewrite MatchString_hostnameRegexp.
  destruct (hostnameShape (runes (bytes_of name))) eqn:E; [| reflexivity].
  exfalso. unfold hostnameShape in E. apply orb_prop in E as [E | E].
  - apply nameBody_inner in E. rewrite forallb_forall in E.
    specialize (E _ Hin). discriminate.
  - destruct (runes (bytes_of name)) as [| c1 [| c2 b]]; try discriminate.
    apply andb_prop in E as [E Hb]. apply andb_prop in E as [H1 H2].
    apply N.eqb_eq in H1, H2. subst c1 c2.
    destruct Hin as [Hin | [Hin | Hin]]; try discriminate.
    apply nameBody_inner in Hb. rewrite forallb_forall in Hb.
    specialize (Hb _ Hin). discriminate.
Qed.

Lemma dtoi_from_digits (s : list byte) : forall n i n' c,
  net.dtoi_from s n i = (n', c, true) ->
  i <= c /\ 0 < c /\ c - i <= List.length s
  /\ forallb (between 48 57) (firstn (c - i) s) = true.
Proof.
  induction s as [| a s IH]; intros n i n' c H; simpl in H.
  - destruct (Nat.eqb_spec i 0); inversion H; subst.
    rewrite Nat.sub_diag. simpl. repeat split; lia.
  - destruct (between 48 57 a) eqn:Ea.
    + destruct (net.big <=? n * 10 + (a - 48))%N; [discriminate |].
      apply IH in H as (H1 & H2 & H3 & H4).
      replace (c - i) with (S (c - S i)) by lia. simpl. rewrite Ea, H4.
      repeat split; lia.
    + destruct (Nat.eqb_spec i 0); inversion H; subst.
      rewrite Nat.sub_diag. simpl. repeat split; lia.
Qed.

Lemma last_app_nonempty {A} (a b : list A) (d : A) :
  b <> [] -> last (a ++ b) d = last b d.
Proof.
  intro Hb. induction a as [| x a IH]; [reflexivity |].
  simpl. destruct (a ++ b) eqn:E; [| exact IH].
  apply app_eq_nil in E as [_ ->]. congruence.
Qed.

Lemma parseIPv4_loop_shape (k : nat) : forall i s p p' rest,
  net.parseIPv4_loop k i s p = Some (p', rest) ->
  exists used,
    s = used ++ rest
    /\ forallb (fun c => between 48 57 c || (c =? 46)%N) used = true
    /\ (k = 0 -> used = [])
    /\ (0 < k ->
        used <> [] /\ between 48 57 (last used 0%N) = true
        /\ (i = 0 -> between 48 57 (hd 0%N used) = true)).
Proof.
  induction k as [| k IH]; intros i s p p' rest H; simpl in H.
  - injection H as <- <-. exists []. repeat split; auto; lia.
  - destruct s as [| c0 s0]; [discriminate |].
    set (o := if (0 <? i)%nat then (if (c0 =? 46)%N then Some s0 else None)
              else Some (c0 :: s0)) in H.
    destruct o as [s1 |] eqn:Es1; [| discriminate].
    destruct (net.dtoi s1) as [[n cnt] ok] eqn:Ed.
    destruct ok; [| discriminate].
    destruct (0xFF <? n)%N; [discriminate |]. simpl in H.
    apply IH in H as (used' & Esk & Hall' & Hk0 & Hk).
    apply dtoi_from_digits in Ed as (_ & Hc & Hlen & Hdig).
    rewrite Nat.sub_0_r in Hlen, Hdig.
    assert (Hne : firstn cnt s1 <> []).
    { destruct s1; [simpl in Hlen; lia |]. destruct cnt; [lia | discriminate]. }
    assert (Hpre : exists pre,
               c0 :: s0 = pre ++ s1
               /\ forallb (fun c => between 48 57 c || (c =? 46)%N) pre = true
               /\ (i = 0 -> pre = [])).
    { subst o. destruct (0 <? i)%nat eqn:Ei.
      - destruct (N.eqb_spec c0 46) as [-> | ]; [| discriminate].
        injection Es1 as <-. exists [46%N]. repeat split.
        intros ->. discriminate.
      - injection Es1 as <-. exists []. auto. }
    destruct Hpre as (pre & Es & Hpre & Hi0).
    exists (pre ++ firstn cnt s1 ++ used').
    assert (Hwk : forallb (fun c => between 48 57 c || (c =? 46)%N) (firstn cnt s1)
                  = true).
    { revert Hdig. apply forallb_weaken. now intros x ->. }
    split; [| split; [| split]].
    + rewrite Es, <- !app_assoc, <- Esk, firstn_skipn. reflexivity.
    + rewrite !forallb_app.
      apply andb_true_intro; split; [exact Hpre |].
      apply andb_true_intro; split; [exact Hwk | exact Hall'].
    + discriminate.
    + intros _. split; [| split].
      * intro E. apply app_eq_nil in E as [_ E]. apply app_eq_nil in E as [E _].
        contradiction.
      * destruct k as [| k].
        -- rewrite (Hk0 eq_refl), app_nil_r.
           rewrite (last_app_nonempty _ _ Hne).
           now apply forallb_last.
        -- destruct (Hk ltac:(lia)) as (Hu & Hl & _).
           rewrite app_assoc. now rewrite (last_app_nonempty _ _ Hu).
      * intro Hi. rewrite (Hi0 Hi). simpl.
        destruct (firstn cnt s1) as [| x f]; [congruence |].
        simpl in Hdig |- *. now apply andb_prop in Hdig as [Hx _].
Qed.

Lemma digit_edge (c : byte) : between 48 57 c = true -> edgeChar c = true.
Proof. unfold edgeChar, alnum. now intros ->. Qed.

Lemma digit_or_dot (c : byte) :
  between 48 57 c || (c =? 46)%N = true ->
  (c <? 128)%N = true /\ innerChar c = true.
Proof.
  intro H. apply orb_prop in H as [H | H].
  - split; [| now apply edge_inner, digit_edge].
    unfold between in H. apply andb_prop in H as [_ H].
    apply N.leb_le in H. apply N.ltb_lt. lia.
  - apply N.eqb_eq in H. subst c. split; reflexivity.
Qed.

Lemma parseIPv4_matches (name : string) (ip : net.IP) :
  net.parseIPv4 (bytes_of name) = Some ip ->
  MatchString hostnameRegexp name = true.
Proof.
  unfold net.parseIPv4. intro H.
  destruct (net.parseIPv4_loop net.IPv4len 0 (bytes_of name) [])
    as [[p' rest] |] eqn:E; [| discriminate].
  destruct rest as [| x rest].
  2: { destruct p' as [| a [| b [| c [| d [| e p']]]]]; discriminate. }
  clear H. apply parseIPv4_loop_shape in E as (used & Es & Hall & _ & Hk).
  rewrite app_nil_r in Es. subst used.
  destruct (Hk ltac:(unfold net.IPv4len; lia)) as (Hne & Hlast & Hhd).
  specialize (Hhd eq_refl).
  rewrite MatchString_hostnameRegexp, runes_ascii.
  2: { revert Hall. apply forallb_weaken. intros c Hc. now apply digit_or_dot. }
  unfold hostnameShape.
  destruct (bytes_of name) as [| a v]; [congruence |].
  simpl in Hhd.
  assert (Hin : forallb innerChar (a :: v) = true).
  { revert Hall. apply forallb_weaken. intros c Hc. now apply digit_or_dot. }
  assert (Hl : edgeChar (last (a :: v) a) = true).
  { rewrite (@last_default _ (a :: v) a 0%N) by discriminate.
    now apply digit_edge. }
  change (edgeChar a && edgeChar (last (a :: v) a) && forallb innerChar (a :: v)
          || match a :: v with
             | c1 :: c2 :: b => (c1 =? 42)%N && (c2 =? 46)%N && nameBody b
             | _ => false
             end = true).
  now rewrite (@digit_edge a Hhd), Hl, Hin.
Qed.

Lemma ParseIP_scan_family (s : list byte) (ip : net.IP) : forall rest,
  net.ParseIP_scan s rest = Some ip ->
  existsb (fun b => (b =? 58)%N) rest = true \/ net.parseIPv4 s = Some ip.
Proof.
  induction rest as [| c rest IH]; simpl; [discriminate |].
  destruct (c =? 46)%N; [now right |].
  destruct (c =? 58)%N; [now left |].
  exact IH.
Qed.

(** X15: the two tests of the loop never overlap in what they add.  A name
    with a colon byte is let through exactly when [net.ParseIP] accepts it
    (the pattern matches no such name); a name without one is let through
    exactly when the pattern matches it (everything [net.ParseIP] accepts
    without a colon is a dotted quad of digits, which the pattern matches
    too). *)
Theorem nameOK_by_colon (name : string) :
  nameOK name =
  if existsb (fun b => (b =? 58)%N) (bytes_of name) then byIP name
  else MatchString hostnameRegexp name.
Proof.
  unfold nameOK.
  destruct (existsb (fun b => (b =? 58)%N) (bytes_of name)) eqn:Ecolon.
  - rewrite (colon_no_match _ Ecolon). apply orb_false_r.
  - unfold byIP. destruct (net.ParseIP name) as [ip |] eqn:Eip; [| reflexivity].
    unfold net.ParseIP in Eip. apply ParseIP_scan_family in Eip as [Eip | Eip].
    + congruence.
    + now rewrite (parseIPv4_matches _ Eip).
Qed.

(** * The order of a run *)

(** X1: in every invocation the events that occur do so in the order of
    their phases, and no phase occurs twice: the directory, the load, the
    verification, the step of the mode, the line that closes it, and last
    the usage text or the issuance.  A trace that is not empty starts with
    [MkdirAll] on the resolved root, and its second event, if there is one,
    is the load of the authority.  The platform installer and the issuance
    occur only in a trace that holds a verification, which by the order
    comes before them. *)
Theorem main_phases (w : World) (i u : bool) (args : list string) :
  ascending (map phase (fst (main w i u args))) = true
  /\ match fst (main w i u args) with
     | [] => True
     | e :: _ => e = EvMkdirAll (getCAROOT w) perm0755
     end
  /\ match fst (main w i u args) with
     | _ :: e :: _ => e = EvCall LoadCA
     | _ => True
     end
  /\ installs (fst (main w i u args)) && negb (verifies (fst (main w i u args)))
     = false
  /\ issues (fst (main w i u args)) && negb (verifies (fst (main w i u args)))
     = false.
Proof.
  unfold main. destruct i, u; simpl andb; cbv iota.
  1: { repeat split. }
  all: match goal with
       | |- context [Run ?w0 ?a ?m] => run_cases w0 a m
       end; repeat split.
Qed.
